(** * HopSkipJump: a shallow embedding of [src/attacks/hopskipjump.py]

    The attack is a decision-based boundary search.  Arrays are modelled as
    flattened lists of rationals, class labels as integers, and the classifier
    as a pure function from one sample to its row of scores.  The three
    [while] loops of the source are given fuel; running out of fuel is a
    separate outcome, distinct from returning and from raising.  Random draws
    are read from injected streams, so that a run is a function of its
    inputs.

    numpy does not raise when it divides by zero: it goes on with [nan] or an
    infinity.  The rationals have neither.  The divisions of the direction
    estimate, whose divisors a run can bring to zero, are therefore partial
    here, and a run that meets a zero divisor there ends in an outcome of its
    own, [NotFinite]: from that point on the source computes with values this
    embedding does not have, and the run is followed no further. *)

From Stdlib Require Import List ZArith QArith Qabs Qround Lia Lqa Bool.
From Stdlib Require String.
Import ListNotations.
Open Scope Q_scope.

Module HopSkipJump.

(** ** Numbers and arrays *)

Definition Qlt_bool (a b : Q) : bool := negb (Qle_bool b a).

(** [np.maximum], [np.minimum] and [np.clip] on one element. *)
Definition Qmaximum (a b : Q) : Q := if Qlt_bool a b then b else a.
Definition Qminimum (a b : Q) : Q := if Qlt_bool b a then b else a.
Definition clip (a lo hi : Q) : Q := Qminimum (Qmaximum a lo) hi.

(** [np.sign] on one element. *)
Definition Qsign (a : Q) : Q :=
  if Qlt_bool a 0 then -(1) else if Qlt_bool 0 a then 1 else 0.

(** [int(q)]: truncation towards zero. *)
Definition Qtrunc (q : Q) : Z := Z.quot (Qnum q) (Zpos (Qden q)).

Definition sample := list Q.

Fixpoint zip_with {A B C} (f : A -> B -> C) (l : list A) (m : list B) : list C :=
  match l, m with
  | a :: l', b :: m' => f a b :: zip_with f l' m'
  | _, _ => []
  end.

Definition vadd (u v : sample) : sample := zip_with Qplus u v.
Definition vsub (u v : sample) : sample := zip_with Qminus u v.
Definition vmul (u v : sample) : sample := zip_with Qmult u v.
Definition vscale (c : Q) (v : sample) : sample := map (Qmult c) v.
Definition vneg (v : sample) : sample := map Qopp v.
Definition vabs (v : sample) : sample := map Qabs v.
Definition vclip (v : sample) (lo hi : Q) : sample := map (fun a => clip a lo hi) v.

(** [np.clip(a, lo, hi)] with array bounds. *)
Definition vclip_box (v lo hi : sample) : sample :=
  zip_with (fun a b => Qminimum a b) (zip_with Qmaximum v lo) hi.

Definition Qsum (l : list Q) : Q := fold_right Qplus 0 l.

(** An array divided by a number.  Every element of [v / 0] is [nan] or an
    infinity: there is an array of rationals only when the divisor is not
    zero, or when there is no element to divide. *)
Definition vdiv (v : sample) (c : Q) : option sample :=
  match v with
  | [] => Some []
  | _ => if Qeq_bool c 0 then None else Some (map (fun a => a / c) v)
  end.

(** The rows of a batch, when every one of them is there. *)
Fixpoint all_some {A} (l : list (option A)) : option (list A) :=
  match l with
  | [] => Some []
  | Some a :: t =>
      match all_some t with
      | Some t' => Some (a :: t')
      | None => None
      end
  | None :: _ => None
  end.

(** [np.max] and [np.min] of a non-empty array; numpy raises on an empty one,
    which [generate] meets first, at the clip bounds. *)
Definition list_max (l : list Q) : Q :=
  match l with [] => 0 | a :: t => fold_left Qmaximum t a end.
Definition list_min (l : list Q) : Q :=
  match l with [] => 0 | a :: t => fold_left Qminimum t a end.

(** [1 - mask] and [candidate * mask + x * (1 - mask)]. *)
Definition apply_mask (candidate mask x : sample) : sample :=
  vadd (vmul candidate mask) (vmul x (map (fun m => 1 - m) mask)).

(** [torch.argmax] over one row: the first index holding the largest score. *)
Fixpoint argmax_from (best_i : nat) (best : Q) (i : nat) (l : list Q) : nat :=
  match l with
  | [] => best_i
  | v :: t => if Qlt_bool best v then argmax_from i v (S i) t
              else argmax_from best_i best (S i) t
  end.

Definition argmax (row : list Q) : Z :=
  match row with [] => 0%Z | v :: t => Z.of_nat (argmax_from 0 v 1 t) end.

(** ** Configuration, collaborators and state *)

Inductive norm_t := L2 | Linf.

Definition norm_eq_2 (n : norm_t) : bool :=
  match n with L2 => true | Linf => false end.

Record config := {
  apply_softmax : bool;
  input_shape : list nat;
  targeted : bool;
  norm : norm_t;
  max_iter : nat;
  max_eval : nat;
  init_eval : nat;
  init_size : nat;
  theta : Q
}.

(** What the attack takes from outside: the classifier, the two numeric
    primitives that have no rational value, and the random sources.
    [unif k j] is coordinate [j] of the [k]-th array of unit uniform draws of
    the initial-sample finder; [randn] and [unif_sym] are the Gaussian and the
    [uniform(-1, 1)] arrays of the direction estimator. *)
Record externals := {
  estimator : sample -> list Q;
  softmax : list Q -> list Q;
  sqrt : Q -> Q;
  unif : nat -> nat -> Q;
  randn : nat -> nat -> Q;
  unif_sym : nat -> nat -> Q
}.

Inductive exn := ValueError | TypeError | IndexError | RuntimeError.

(** How a run ends: it returns, it raises, the fuel of a loop is spent, or
    the direction estimate has divided by zero. *)
Inductive outcome (A : Type) :=
| Ret (a : A)
| Raise (e : exn)
| OutOfFuel
| NotFinite.
Arguments Ret {A} a.
Arguments Raise {A} e.
Arguments OutOfFuel {A}.
Arguments NotFinite {A}.

(** [self.curr_iter] and the read positions of the random sources. *)
Record state := {
  curr_iter : nat;
  unif_pos : nat;
  noise_pos : nat
}.

Definition M (A : Type) := state -> outcome (A * state).

Definition ret {A} (a : A) : M A := fun s => Ret (a, s).
Definition raise {A} (e : exn) : M A := fun _ => Raise e.
Definition bind {A B} (m : M A) (f : A -> M B) : M B :=
  fun s => match m s with
           | Ret (a, s') => f a s'
           | Raise e => Raise e
           | OutOfFuel => OutOfFuel
           | NotFinite => NotFinite
           end.
Definition lift {A} (o : outcome A) : M A :=
  fun s => match o with
           | Ret a => Ret (a, s)
           | Raise e => Raise e
           | OutOfFuel => OutOfFuel
           | NotFinite => NotFinite
           end.

(** A value that is there only when no division by zero was met. *)
Definition finite {A} (o : option A) : M A :=
  fun s => match o with
           | Some a => Ret (a, s)
           | None => NotFinite
           end.
Definition get_curr_iter : M nat := fun s => Ret (curr_iter s, s).
Definition set_curr_iter (n : nat) : M unit :=
  fun s => Ret (tt, {| curr_iter := n; unif_pos := unif_pos s; noise_pos := noise_pos s |}).

Notation "x <- m ;; k" := (bind m (fun x => k))
  (at level 61, m at next level, right associativity).
Notation "' pat <- m ;; k" := (bind m (fun x => match x with pat => k end))
  (at level 61, pat pattern, m at next level, right associativity).

Definition nat_prod (l : list nat) : nat := fold_right Nat.mul 1%nat l.
Definition Qnat (n : nat) : Q := inject_Z (Z.of_nat n).

(** [__init__]: the binary-search threshold derived from the norm and the
    input shape. *)
Definition init_theta (E : externals) (n : norm_t) (shape : list nat) : Q :=
  if norm_eq_2 n then (1 # 100) / sqrt E (Qnat (nat_prod shape))
  else (1 # 100) / Qnat (nat_prod shape).

(** [_check_params] on the integer parameters as given. *)
Definition _check_params (max_iter' max_eval' init_eval' init_size' : Z) : option exn :=
  if (max_iter' <? 0)%Z then Some ValueError
  else if (max_eval' <=? 0)%Z then Some ValueError
  else if (init_eval' <=? 0)%Z then Some ValueError
  else if (max_eval' <? init_eval')%Z then Some ValueError
  else if (init_size' <=? 0)%Z then Some ValueError
  else None.

Definition __init__ (E : externals) (softmax_flag : bool) (shape : list nat)
    (targeted' : bool) (norm' : norm_t)
    (max_iter' max_eval' init_eval' init_size' : Z) : outcome config :=
  match _check_params max_iter' max_eval' init_eval' init_size' with
  | Some e => Raise e
  | None =>
      Ret {| apply_softmax := softmax_flag; input_shape := shape;
             targeted := targeted'; norm := norm';
             max_iter := Z.to_nat max_iter'; max_eval := Z.to_nat max_eval';
             init_eval := Z.to_nat init_eval'; init_size := Z.to_nat init_size';
             theta := init_theta E norm' shape |}
  end.

Section Attack.

Variable E : externals.
Variable cfg : config.

(** ** The oracle *)

(** The classifier on one sample.  A rational has many fractions; the
    classifier is a function of the number, so it is handed the fraction in
    lowest terms. *)
Definition scores (s : sample) : list Q := estimator E (map Qred s).

(** [np.sqrt], likewise. *)
Definition Qsqrt (q : Q) : Q := sqrt E (Qred q).

(** [torch.argmax(self.estimator(input), dim=1)], with the softmax of
    [generate] and [_adversarial_satisfactory] when [with_softmax] is set. *)
Definition predict (with_softmax : bool) (s : sample) : Z :=
  let output := scores s in
  let output := if with_softmax then softmax E output else output in
  argmax output.

(** [_adversarial_satisfactory]: one flag per sample of the batch.  [target] is
    a number: a class label, or whatever [_init_sample] returned as second
    component. *)
Definition _adversarial_satisfactory (samples : list sample) (target : Q)
    (clip_min clip_max : Q) : list bool :=
  let samples := map (fun s => vclip s clip_min clip_max) samples in
  let preds := map (predict (apply_softmax cfg)) samples in
  if targeted cfg
  then map (fun p => Qeq_bool (inject_Z p) target) preds
  else map (fun p => negb (Qeq_bool (inject_Z p) target)) preds.

(** The flag of a batch of one sample ([...[0]], or the truth value of a
    one-element tensor). *)
Definition first_flag (flags : list bool) : bool :=
  match flags with b :: _ => b | [] => false end.

(** ** [_interpolate] *)

Definition _interpolate (current_sample original_sample : sample) (alpha : Q)
    (n : norm_t) : sample :=
  if norm_eq_2 n
  then vadd (vscale (1 - alpha) original_sample) (vscale alpha current_sample)
  else vclip_box current_sample
         (map (fun o => o - alpha) original_sample)
         (map (fun o => o + alpha) original_sample).

(** ** [_binary_search] *)

(** The [while (upper_bound - lower_bound) > threshold] loop. *)
Fixpoint bs_loop (fuel : nat) (current_sample original_sample : sample)
    (target : Q) (n : norm_t) (clip_min clip_max threshold : Q)
    (lower_bound upper_bound : Q) : outcome (Q * Q) :=
  if Qlt_bool threshold (upper_bound - lower_bound) then
    match fuel with
    | O => OutOfFuel
    | S fuel' =>
        let alpha := (upper_bound + lower_bound) / 2 in
        let interpolated_sample :=
          _interpolate current_sample original_sample alpha n in
        let satisfied :=
          first_flag (_adversarial_satisfactory [interpolated_sample] target
                        clip_min clip_max) in
        let lower_bound' := if negb satisfied then alpha else lower_bound in
        let upper_bound' := if satisfied then alpha else upper_bound in
        bs_loop fuel' current_sample original_sample target n clip_min clip_max
          threshold lower_bound' upper_bound'
    end
  else Ret (lower_bound, upper_bound).

(** The bounds and the threshold the search starts from. *)
Definition bs_init (current_sample original_sample : sample) (n : norm_t)
    (threshold : option Q) : Q * Q * Q :=
  if norm_eq_2 n then
    (1, 0, match threshold with None => theta cfg | Some t => t end)
  else
    let upper_bound := list_max (vabs (vsub original_sample current_sample)) in
    (upper_bound, 0,
     match threshold with
     | None => Qminimum (upper_bound * theta cfg) (theta cfg)
     | Some t => t
     end).

Definition _binary_search (fuel : nat) (current_sample original_sample : sample)
    (target : Q) (n : norm_t) (clip_min clip_max : Q) (threshold : option Q)
    : outcome sample :=
  let '(upper_bound, lower_bound, threshold) :=
    bs_init current_sample original_sample n threshold in
  match bs_loop fuel current_sample original_sample target n clip_min clip_max
          threshold lower_bound upper_bound with
  | Ret (_, upper_bound) =>
      Ret (_interpolate current_sample original_sample upper_bound n)
  | Raise e => Raise e
  | OutOfFuel => OutOfFuel
  | NotFinite => NotFinite
  end.

(** ** [_compute_delta] *)

Definition l2_norm (v : sample) : Q := Qsqrt (Qsum (map (fun a => a * a) v)).
Definition linf_norm (v : sample) : Q := list_max (vabs v).
Definition numel : nat := nat_prod (input_shape cfg).

Definition _compute_delta (iter : nat) (current_sample original_sample : sample)
    (clip_min clip_max : Q) : Q :=
  if Nat.eqb iter 0 then (1 # 10) * (clip_max - clip_min)
  else if norm_eq_2 (norm cfg) then
    let dist := l2_norm (vsub original_sample current_sample) in
    Qsqrt (Qnat numel) * theta cfg * dist
  else
    let dist := linf_norm (vsub original_sample current_sample) in
    Qnat numel * theta cfg * dist.

(** ** [_compute_update] *)

(** [np.mean] over every element: [nan] for an array without elements. *)
Definition Qmean (l : list Q) : option Q :=
  match l with
  | [] => None
  | _ => Some (Qsum l / Qnat (length l))
  end.

(** [np.mean(rows, axis=0)]: one mean per element of the input shape, each
    [nan] when the batch has no row. *)
Definition mean_axis0 (rows : list sample) : option sample :=
  all_some (map (fun j => Qmean (map (fun r => nth j r 0) rows)) (seq 0 numel)).

(** The random noise drawn by one call: [num_eval] arrays of the input shape,
    Gaussian for the L2 attack and uniform on [-1, 1] otherwise. *)
Definition draw_noise (num_eval : nat) : M (list sample) :=
  fun s =>
    let source := if norm_eq_2 (norm cfg) then randn E else unif_sym E in
    Ret (map (fun p => map (source (noise_pos s + p)%nat) (seq 0 numel))
             (seq 0 num_eval),
         {| curr_iter := curr_iter s; unif_pos := unif_pos s;
            noise_pos := (noise_pos s + num_eval)%nat |}).

(** From the probes to the raw direction [grad].  The mean of the indicators
    of an empty batch is [nan], which equals neither 1 nor -1: the last branch
    is taken, on a batch without rows. *)
Definition estimate_grad (satisfied : list bool) (rnd_noise : list sample)
    : option sample :=
  let f_val := map (fun b : bool => 2 * (if b then 1 else 0) - 1) satisfied in
  match Qmean f_val with
  | Some mean =>
      if Qeq_bool mean 1 then mean_axis0 rnd_noise
      else if Qeq_bool mean (-(1)) then option_map vneg (mean_axis0 rnd_noise)
      else
        let f_val := map (fun f => f - mean) f_val in
        mean_axis0 (zip_with vscale f_val rnd_noise)
  | None => mean_axis0 []
  end.

(** [grad / np.linalg.norm(grad)] and [np.sign(grad)]. *)
Definition normalize_update (grad : sample) : option sample :=
  if norm_eq_2 (norm cfg) then vdiv grad (l2_norm grad) else Some (map Qsign grad).

(** The probes as evaluated: the clipped samples and the perturbations that
    were really applied.  Each row of noise is divided by its norm, and each
    applied perturbation by [delta]. *)
Definition probes (rnd_noise : list sample) (current_sample : sample) (delta : Q)
    (mask : option sample) (clip_min clip_max : Q)
    : option (list sample * list sample) :=
  let rnd_noise :=
    match mask with
    | Some m => map (fun r => vmul r m) rnd_noise
    | None => rnd_noise
    end in
  match all_some (map (fun r => vdiv r (l2_norm r)) rnd_noise) with
  | Some rnd_noise =>
      let eval_samples :=
        map (fun r => vclip (vadd current_sample (vscale delta r)) clip_min clip_max)
            rnd_noise in
      match all_some (map (fun e => vdiv (vsub e current_sample) delta)
                          eval_samples) with
      | Some rnd_noise => Some (eval_samples, rnd_noise)
      | None => None
      end
  | None => None
  end.

Definition _compute_update (current_sample : sample) (num_eval : nat) (delta : Q)
    (target : Q) (mask : option sample) (clip_min clip_max : Q) : M sample :=
  rnd_noise <- draw_noise num_eval ;;
  probed <- finite (probes rnd_noise current_sample delta mask clip_min clip_max) ;;
  let '(eval_samples, rnd_noise) := probed in
  let satisfied := _adversarial_satisfactory eval_samples target clip_min clip_max in
  grad <- finite (estimate_grad satisfied rnd_noise) ;;
  finite (normalize_update grad).

(** ** [_init_sample] *)

(** [nprd.uniform(clip_min, clip_max, size=x.shape)]. *)
Definition draw_uniform (clip_min clip_max : Q) (size : nat) : M sample :=
  fun s =>
    Ret (map (fun j => clip_min + (clip_max - clip_min) * unif E (unif_pos s) j)
             (seq 0 size),
         {| curr_iter := curr_iter s; unif_pos := S (unif_pos s);
            noise_pos := noise_pos s |}).

Definition masked (mask : option sample) (random_img x : sample) : sample :=
  match mask with
  | Some m => apply_mask random_img m x
  | None => random_img
  end.

(** The truth value of a tensor of flags, as [if] takes it: defined for one
    element only. *)
Definition tensor_truth (flags : list bool) : outcome bool :=
  match flags with
  | [b] => Ret b
  | _ => Raise RuntimeError
  end.

(** [init_pred == label] ([is_ne] unset) and [init_pred != label] ([is_ne]
    set).  [init_pred] is [None] or the row [generate] took from the
    estimator. *)
Definition init_pred_cmp (is_ne : bool) (init_pred : option (list Q)) (label : Z)
    : outcome bool :=
  match init_pred with
  | None => Ret is_ne
  | Some row =>
      tensor_truth (map (fun v => xorb is_ne (Qeq_bool v (inject_Z label))) row)
  end.

(** [adv_init is not None and ...]. *)
Definition adv_init_test (is_ne : bool) (adv_init : option sample)
    (init_pred : option (list Q)) (label : Z) : outcome bool :=
  match adv_init with
  | None => Ret false
  | Some _ => init_pred_cmp is_ne init_pred label
  end.

Definition row_value (init_pred : option (list Q)) : Q :=
  match init_pred with
  | Some (v :: _) => v
  | _ => 0
  end.

(** The loop of the targeted branch, [n] draws left. *)
Fixpoint targeted_draws (n fuel : nat) (x : sample) (y : Z) (mask : option sample)
    (clip_min clip_max : Q) (initial_sample : option (sample * Q))
    : M (option (sample * Q)) :=
  match n with
  | O => ret initial_sample
  | S n' =>
      random_img <- draw_uniform clip_min clip_max (length x) ;;
      let random_img := masked mask random_img x in
      let random_class := predict false random_img in
      if (random_class =? y)%Z then
        random_img <- lift (_binary_search fuel random_img x (inject_Z y) L2
                              clip_min clip_max (Some (1 # 1000))) ;;
        targeted_draws n' fuel x y mask clip_min clip_max
          (Some (random_img, inject_Z random_class))
      else
        targeted_draws n' fuel x y mask clip_min clip_max initial_sample
  end.

(** The loop of the untargeted branch, [n] draws left. *)
Fixpoint untargeted_draws (n fuel : nat) (x : sample) (y_p : Z)
    (mask : option sample) (clip_min clip_max : Q) : M (option (sample * Q)) :=
  match n with
  | O => ret None
  | S n' =>
      random_img <- draw_uniform clip_min clip_max (length x) ;;
      let random_img := masked mask random_img x in
      let random_class := predict false random_img in
      if negb (random_class =? y_p)%Z then
        random_img <- lift (_binary_search fuel random_img x (inject_Z y_p) L2
                              clip_min clip_max (Some (1 # 1000))) ;;
        ret (Some (random_img, inject_Z y_p))
      else
        untargeted_draws n' fuel x y_p mask clip_min clip_max
  end.

Definition _init_sample (fuel : nat) (x : sample) (y y_p : Z)
    (init_pred : option (list Q)) (adv_init : option sample)
    (mask : option sample) (clip_min clip_max : Q) : M (option (sample * Q)) :=
  if targeted cfg then
    if (y =? y_p)%Z then ret None
    else
      hit <- lift (adv_init_test false adv_init init_pred y) ;;
      match hit, adv_init with
      | true, Some a => ret (Some (a, row_value init_pred))
      | _, _ =>
          targeted_draws (init_size cfg) fuel x y mask clip_min clip_max None
      end
  else
    hit <- lift (adv_init_test true adv_init init_pred y_p) ;;
    match hit, adv_init with
    | true, Some a => ret (Some (a, inject_Z y_p))
    | _, _ => untargeted_draws (init_size cfg) fuel x y_p mask clip_min clip_max
    end.

(** ** [_attack] *)

(** The [while not success] loop: the step size it stops at and the sample
    tested there. *)
Fixpoint step_loop (fuel : nat) (current_sample update : sample) (target : Q)
    (clip_min clip_max : Q) (epsilon : Q) : outcome (Q * sample) :=
  match fuel with
  | O => OutOfFuel
  | S fuel' =>
      let epsilon := epsilon / 2 in
      let potential_sample := vadd current_sample (vscale epsilon update) in
      let success :=
        first_flag (_adversarial_satisfactory [potential_sample] target
                      clip_min clip_max) in
      if success then Ret (epsilon, potential_sample)
      else step_loop fuel' current_sample update target clip_min clip_max epsilon
  end.

Definition distance (original_sample current_sample : sample) : Q :=
  if norm_eq_2 (norm cfg) then l2_norm (vsub original_sample current_sample)
  else linf_norm (vsub original_sample current_sample).

Definition initial_epsilon (iter : nat) (dist : Q) : Q :=
  2 * dist / Qsqrt (Qnat (iter + 1)).

Definition get_num_eval (iter : nat) : nat :=
  Z.to_nat (Z.min (Qtrunc (Qnat (init_eval cfg) * Qsqrt (Qnat (iter + 1))))
                  (Z.of_nat (max_eval cfg))).

(** One pass of the main loop. *)
Definition attack_iteration (fuel : nat) (current_sample original_sample : sample)
    (target : Q) (mask : option sample) (clip_min clip_max : Q) : M sample :=
  iter <- get_curr_iter ;;
  let delta := _compute_delta iter current_sample original_sample clip_min clip_max in
  current_sample <- lift (_binary_search fuel current_sample original_sample target
                            (norm cfg) clip_min clip_max None) ;;
  let num_eval := get_num_eval iter in
  update <- _compute_update current_sample num_eval delta target mask
              clip_min clip_max ;;
  let dist := distance original_sample current_sample in
  let epsilon := initial_epsilon iter dist in
  found <- lift (step_loop fuel current_sample update target clip_min clip_max
                   epsilon) ;;
  let current_sample := vclip (snd found) clip_min clip_max in
  _ <- set_curr_iter (iter + 1) ;;
  ret current_sample.

Fixpoint attack_loop (iters fuel : nat) (current_sample original_sample : sample)
    (target : Q) (mask : option sample) (clip_min clip_max : Q) : M sample :=
  match iters with
  | O => ret current_sample
  | S iters' =>
      current_sample <- attack_iteration fuel current_sample original_sample
                          target mask clip_min clip_max ;;
      attack_loop iters' fuel current_sample original_sample target mask
        clip_min clip_max
  end.

Definition _attack (fuel : nat) (initial_sample original_sample : sample)
    (target : Q) (mask : option sample) (clip_min clip_max : Q) : M sample :=
  attack_loop (max_iter cfg) fuel initial_sample original_sample target mask
    clip_min clip_max.

(** ** [_perturb] *)

Definition _perturb (fuel : nat) (x : sample) (y y_p : Z)
    (init_pred : option (list Q)) (adv_init : option sample)
    (mask : option sample) (clip_min clip_max : Q) : M sample :=
  initial_sample <- _init_sample fuel x y y_p init_pred adv_init mask
                      clip_min clip_max ;;
  match initial_sample with
  | None => ret x
  | Some (s, t) => _attack fuel s x t mask clip_min clip_max
  end.

(** ** [generate] *)

(** [np.min(x), np.max(x)] over the whole batch. *)
Definition batch_bounds (x : list sample) : outcome (Q * Q) :=
  match concat x with
  | [] => Raise ValueError
  | all => Ret (list_min all, list_max all)
  end.

Fixpoint list_set {A} (l : list A) (i : nat) (a : A) : list A :=
  match l, i with
  | [], _ => []
  | _ :: t, O => a :: t
  | h :: t, S i' => h :: list_set t i' a
  end.

(** The loop that blends the mask into [x_adv_init], from sample [i] on with
    [n] samples left. *)
Fixpoint blend_init (n i : nat) (x : list sample) (mask : option (list sample))
    (x_adv_init : list sample) : outcome (list sample) :=
  match n with
  | O => Ret x_adv_init
  | S n' =>
      match mask with
      | None => Raise TypeError
      | Some m =>
          match nth_error m i, nth_error x_adv_init i, nth_error x i with
          | Some mask_i, Some init_i, Some x_i =>
              blend_init n' (S i) x mask
                (list_set x_adv_init i (apply_mask init_i mask_i x_i))
          | _, _, _ => Raise IndexError
          end
      end
  end.

(** The label argument of [_perturb] for sample [ind]: [y[ind]] for a targeted
    attack, [-1] otherwise. *)
Definition label_arg (y : option (list Z)) (ind : nat) : outcome Z :=
  if targeted cfg then
    match y with
    | Some ys =>
        match nth_error ys ind with
        | Some v => Ret v
        | None => Raise IndexError
        end
    | None => Raise ValueError
    end
  else Ret (-1)%Z.

(** The loop over the samples, from index [ind] on. *)
Fixpoint perturb_all (fuel start : nat) (y : option (list Z)) (preds : list Z)
    (init_preds : list (option (list Q))) (x_adv_init : list (option sample))
    (clip_min clip_max : Q) (ind : nat) (todo : list sample) : M (list sample) :=
  match todo with
  | [] => ret []
  | val :: rest =>
      _ <- set_curr_iter start ;;
      y_ind <- lift (label_arg y ind) ;;
      out <- _perturb fuel val y_ind (nth ind preds 0%Z) (nth ind init_preds None)
               (nth ind x_adv_init None) None clip_min clip_max ;;
      outs <- perturb_all fuel start y preds init_preds x_adv_init
                clip_min clip_max (S ind) rest ;;
      ret (out :: outs)
  end.

Definition generate (fuel : nat) (x : list sample) (y : option (list Z))
    (mask : option (list sample)) (x_adv_init : option (list sample))
    (resume : option bool) : M (list sample) :=
  iter <- get_curr_iter ;;
  let start := match resume with Some true => iter | _ => O end in
  bounds <- lift (batch_bounds x) ;;
  let '(clip_min, clip_max) := bounds in
  let preds := map (predict (apply_softmax cfg)) x in
  inits <- lift (match x_adv_init with
                 | Some a =>
                     match blend_init (length x) 0 x mask a with
                     | Ret a' => Ret (map (fun s => Some (scores s)) a',
                                      map (@Some sample) a')
                     | Raise e => Raise e
                     | OutOfFuel => OutOfFuel
                     | NotFinite => NotFinite
                     end
                 | None => Ret (repeat None (length x), repeat None (length x))
                 end) ;;
  let '(init_preds, x_adv_init) := inits in
  if targeted cfg && match y with None => true | Some _ => false end
  then raise ValueError
  else perturb_all fuel start y preds init_preds x_adv_init clip_min clip_max 0 x.

End Attack.

(** ** The binary-search projector as the specification words it

    Bisection between a lower and an upper bound: the midpoint replaces the
    upper bound when the point interpolated there is adversarial and the lower
    bound otherwise, until the bounds are within the threshold; the answer is
    the point interpolated at the upper bound. *)

Section Projector.

Variable adversarial : sample -> bool.
Variables original current : sample.
Variable n : norm_t.

Definition spec_result (alpha : Q) : sample :=
  match n with
  | L2 => zip_with (fun o c => (1 - alpha) * o + alpha * c) original current
  | Linf => zip_with (fun o c => clip c (o - alpha) (o + alpha)) original current
  end.

Inductive bisection (threshold : Q) : Q -> Q -> sample -> Prop :=
| bisection_stop lower upper :
    upper - lower <= threshold ->
    bisection threshold lower upper (spec_result upper)
| bisection_adversarial lower upper r :
    threshold < upper - lower ->
    adversarial (spec_result ((lower + upper) / 2)) = true ->
    bisection threshold lower ((lower + upper) / 2) r ->
    bisection threshold lower upper r
| bisection_not_adversarial lower upper r :
    threshold < upper - lower ->
    adversarial (spec_result ((lower + upper) / 2)) = false ->
    bisection threshold ((lower + upper) / 2) upper r ->
    bisection threshold lower upper r.

(** The upper bound and the threshold the bisection starts with. *)
Definition spec_start (theta' : Q) : Q * Q :=
  match n with
  | L2 => (1, theta')
  | Linf =>
      let upper := list_max (map Qabs (zip_with Qminus original current)) in
      (upper, Qminimum (upper * theta') theta')
  end.

End Projector.

(** ** The attack object with its attributes as Python holds them

    [__init__] and [set_params] store whatever values they are handed and
    leave it to [_check_params] to reject them, so here an attribute is a
    Python value: [None], a [bool], an [int], a finite [float], infinity or a
    string.  [np.int] is taken as the alias of [int] it was when the source
    was written. *)

Module Dynamic.

Import String.

Inductive value :=
| VNone
| VBool (b : bool)
| VInt (z : Z)
| VFloat (q : Q)
| VInf
| VStr (s : string).

Record attack := {
  a_apply_softmax : bool;
  a_input_shape : list nat;
  a_targeted : value;
  a_norm : value;
  a_max_iter : value;
  a_max_eval : value;
  a_init_eval : value;
  a_init_size : value;
  a_curr_iter : value;
  a_batch_size : value;
  a_verbose : value;
  a_theta : Q
}.

Definition attack_params : list string :=
  ["targeted"; "norm"; "max_iter"; "max_eval"; "init_eval"; "init_size";
   "curr_iter"; "batch_size"; "verbose"]%string.

(** [isinstance(v, (int, np.int))], with the integer held: a [bool] is an
    [int]. *)
Definition as_int (v : value) : option Z :=
  match v with
  | VInt z => Some z
  | VBool b => Some (if b then 1 else 0)%Z
  | _ => None
  end.

(** [v == 2]. *)
Definition eq_two (v : value) : bool :=
  match v with
  | VInt z => (z =? 2)%Z
  | VFloat q => Qeq_bool q 2
  | _ => false
  end.

(** [v in [2, np.inf, "inf"]]. *)
Definition norm_in_list (v : value) : bool :=
  eq_two v
  || match v with
     | VInf => true
     | VStr s => (s =? "inf")%string
     | _ => false
     end.

(** [not isinstance(v, (int, np.int)) or <test on v>]. *)
Definition not_int_or (v : value) (test : Z -> bool) : bool :=
  match as_int v with
  | None => true
  | Some z => test z
  end.

Definition _check_params (o : attack) : option exn :=
  if negb (norm_in_list (a_norm o)) then Some ValueError
  else if not_int_or (a_max_iter o) (fun z => z <? 0)%Z then Some ValueError
  else if not_int_or (a_max_eval o) (fun z => z <=? 0)%Z then Some ValueError
  else if not_int_or (a_init_eval o) (fun z => z <=? 0)%Z then Some ValueError
  else if match as_int (a_init_eval o), as_int (a_max_eval o) with
          | Some ie, Some me => (me <? ie)%Z
          | _, _ => false
          end then Some ValueError
  else if not_int_or (a_init_size o) (fun z => z <=? 0)%Z then Some ValueError
  else if match a_verbose o with VBool _ => false | _ => true end
       then Some ValueError
  else None.

Definition __init__ (E : externals) (apply_softmax' : bool) (input_shape' : list nat)
    (targeted' norm' max_iter' max_eval' init_eval' init_size' verbose' : value)
    : outcome attack :=
  let o := {| a_apply_softmax := apply_softmax'; a_input_shape := input_shape';
              a_targeted := targeted'; a_norm := norm'; a_max_iter := max_iter';
              a_max_eval := max_eval'; a_init_eval := init_eval';
              a_init_size := init_size'; a_curr_iter := VInt 0;
              a_batch_size := VInt 1; a_verbose := verbose'; a_theta := 0 |} in
  match _check_params o with
  | Some e => Raise e
  | None =>
      Ret {| a_apply_softmax := apply_softmax'; a_input_shape := input_shape';
             a_targeted := targeted'; a_norm := norm'; a_max_iter := max_iter';
             a_max_eval := max_eval'; a_init_eval := init_eval';
             a_init_size := init_size'; a_curr_iter := VInt 0;
             a_batch_size := VInt 1; a_verbose := verbose';
             a_theta := init_theta E (if eq_two norm' then L2 else Linf)
                          input_shape' |}
  end.

(** [setattr(self, key, v)] for a key of [attack_params]; [targeted] goes
    through its property setter. *)
Definition setattr (o : attack) (key : string) (v : value) : attack :=
  let '{| a_apply_softmax := sm; a_input_shape := sh; a_targeted := t; a_norm := n;
          a_max_iter := mi; a_max_eval := me; a_init_eval := ie; a_init_size := sz;
          a_curr_iter := ci; a_batch_size := bs; a_verbose := vb; a_theta := th |} := o in
  if (key =? "targeted")%string then
    Build_attack sm sh v n mi me ie sz ci bs vb th
  else if (key =? "norm")%string then
    Build_attack sm sh t v mi me ie sz ci bs vb th
  else if (key =? "max_iter")%string then
    Build_attack sm sh t n v me ie sz ci bs vb th
  else if (key =? "max_eval")%string then
    Build_attack sm sh t n mi v ie sz ci bs vb th
  else if (key =? "init_eval")%string then
    Build_attack sm sh t n mi me v sz ci bs vb th
  else if (key =? "init_size")%string then
    Build_attack sm sh t n mi me ie v ci bs vb th
  else if (key =? "curr_iter")%string then
    Build_attack sm sh t n mi me ie sz v bs vb th
  else if (key =? "batch_size")%string then
    Build_attack sm sh t n mi me ie sz ci v vb th
  else if (key =? "verbose")%string then
    Build_attack sm sh t n mi me ie sz ci bs v th
  else o.

Definition getattr (o : attack) (key : string) : option value :=
  if (key =? "targeted")%string then Some (a_targeted o)
  else if (key =? "norm")%string then Some (a_norm o)
  else if (key =? "max_iter")%string then Some (a_max_iter o)
  else if (key =? "max_eval")%string then Some (a_max_eval o)
  else if (key =? "init_eval")%string then Some (a_init_eval o)
  else if (key =? "init_size")%string then Some (a_init_size o)
  else if (key =? "curr_iter")%string then Some (a_curr_iter o)
  else if (key =? "batch_size")%string then Some (a_batch_size o)
  else if (key =? "verbose")%string then Some (a_verbose o)
  else None.

(** The loop of [set_params] over the items of [kwargs]. *)
Definition assign (kwargs : list (string * value)) (o : attack) : attack :=
  fold_left
    (fun o kv =>
       if existsb (String.eqb (fst kv)) attack_params
       then setattr o (fst kv) (snd kv)
       else o)
    kwargs o.

(** [set_params]: the object as it is left, and the exception if one is
    raised. *)
Definition set_params (kwargs : list (string * value)) (o : attack)
    : attack * option exn :=
  let o' := assign kwargs o in
  (o', _check_params o').

(** The truth value of an attribute, as [if self.targeted] takes it. *)
Definition truthy (v : value) : bool :=
  match v with
  | VNone => false
  | VBool b => b
  | VInt z => negb (z =? 0)%Z
  | VFloat q => negb (Qeq_bool q 0)
  | VInf => true
  | VStr s => negb (s =? "")%string
  end.

Definition count (v : value) : nat :=
  match as_int v with Some z => Z.to_nat z | None => O end.

(** The configuration the search reads off the object. *)
Definition to_config (o : attack) : config :=
  {| apply_softmax := a_apply_softmax o; input_shape := a_input_shape o;
     targeted := truthy (a_targeted o);
     norm := if eq_two (a_norm o) then L2 else Linf;
     max_iter := count (a_max_iter o); max_eval := count (a_max_eval o);
     init_eval := count (a_init_eval o); init_size := count (a_init_size o);
     theta := a_theta o |}.

(** The last value [kwargs] holds for [key]. *)
Definition last_value (key : string) (kwargs : list (string * value)) : option value :=
  fold_left (fun acc kv => if (fst kv =? key)%string then Some (snd kv) else acc)
    kwargs None.

(** The values of a well-typed call of the constructor. *)
Definition norm_value (n : norm_t) : value :=
  match n with L2 => VInt 2 | Linf => VInf end.

Definition key_norm : string := "norm"%string.

Definition outcome_map {A B} (f : A -> B) (r : outcome A) : outcome B :=
  match r with
  | Ret a => Ret (f a)
  | Raise e => Raise e
  | OutOfFuel => OutOfFuel
  | NotFinite => NotFinite
  end.

End Dynamic.


(** ** Concrete collaborators, for running the model *)

Module Examples.

(** A square root good to three decimals. *)
Definition sqrt3 (q : Q) : Q :=
  inject_Z (Z.sqrt (Qfloor (q * 1000000))) / 1000.

(** Two classes, decided by the last coordinate: class 1 below one half. *)
Definition last_coordinate_oracle (s : sample) : list Q :=
  let v := last s 0 in [v; 1 - v].

Definition world : externals := {|
  estimator := last_coordinate_oracle;
  softmax := fun row => row;
  sqrt := sqrt3;
  unif := fun k j => if Nat.even (k + j) then 3 # 4 else 1 # 4;
  randn := fun k j => if Nat.even (k + j) then 1 else -(1);
  unif_sym := fun k j => if Nat.even (k + j) then 1 # 2 else -(1 # 2)
|}.

Definition untargeted_l2 (iters : nat) : config := {|
  apply_softmax := false; input_shape := [2%nat]; targeted := false;
  norm := L2; max_iter := iters; max_eval := 4; init_eval := 2; init_size := 3;
  theta := init_theta world L2 [2%nat]
|}.

Definition targeted_l2 : config := {|
  apply_softmax := false; input_shape := [2%nat]; targeted := true;
  norm := L2; max_iter := 1; max_eval := 4; init_eval := 2; init_size := 3;
  theta := init_theta world L2 [2%nat]
|}.

(** A classifier that answers class 0 whatever the sample; every Gaussian
    draw is 1, so that the probes do not cancel. *)
Definition constant_world : externals := {|
  estimator := fun _ => [1; 0];
  softmax := fun row => row;
  sqrt := sqrt3;
  unif := unif world;
  randn := fun _ _ => 1;
  unif_sym := unif_sym world
|}.

Definition untargeted_linf (iters : nat) : config := {|
  apply_softmax := false; input_shape := [2%nat]; targeted := false;
  norm := Linf; max_iter := iters; max_eval := 4; init_eval := 2; init_size := 3;
  theta := init_theta world Linf [2%nat]
|}.

Definition s0 : state := {| curr_iter := 0; unif_pos := 0; noise_pos := 0 |}.





(** An original sample, of class 0, and an adversarial one, of class 1. *)
Definition orig0 : sample := [0; 1].
Definition cur0 : sample := [3 # 4; 1 # 4].

(** The attack object with the default arguments of the constructor. *)
Definition obj0 : Dynamic.attack :=
  {| Dynamic.a_apply_softmax := false; Dynamic.a_input_shape := [2%nat];
     Dynamic.a_targeted := Dynamic.VBool false; Dynamic.a_norm := Dynamic.VInt 2;
     Dynamic.a_max_iter := Dynamic.VInt 10; Dynamic.a_max_eval := Dynamic.VInt 500;
     Dynamic.a_init_eval := Dynamic.VInt 10; Dynamic.a_init_size := Dynamic.VInt 100;
     Dynamic.a_curr_iter := Dynamic.VInt 0; Dynamic.a_batch_size := Dynamic.VInt 1;
     Dynamic.a_verbose := Dynamic.VBool true;
     Dynamic.a_theta := init_theta world L2 [2%nat] |}.

End Examples.

(** ** Properties *)

Section Properties.

Variable E : externals.
Variable cfg : config.

(** *** Vocabulary of the statements *)

(** Whether an array holds no element. *)
Definition is_nil {A} (l : list A) : bool :=
  match l with [] => true | _ => false end.

(** The state once [self.curr_iter] is set, and the value [generate] sets it
    to before each sample. *)
Definition with_curr_iter (n : nat) (st : state) : state :=
  {| curr_iter := n; unif_pos := unif_pos st; noise_pos := noise_pos st |}.

Definition start_of (resume : option bool) (st : state) : nat :=
  match resume with Some true => curr_iter st | _ => O end.

(** [epsilon] after [k] halvings, and the sample tested with it. *)
Definition halvings (k : nat) (epsilon : Q) : Q :=
  Nat.iter k (fun e => e / 2) epsilon.

Definition candidate (current_sample update : sample) (epsilon : Q) (k : nat)
    : sample :=
  vadd current_sample (vscale (halvings (S k) epsilon) update).

(** The outcome of the adversarial test at the [k]-th halving. *)
Definition tested (current_sample update : sample) (target clip_min clip_max : Q)
    (epsilon : Q) (k : nat) : bool :=
  first_flag (_adversarial_satisfactory E cfg [candidate current_sample update epsilon k]
                target clip_min clip_max).

Definition pow2 (k : nat) : Q := inject_Z (2 ^ Z.of_nat k).

(** The array drawn at read position [pos], mask applied, and the state once
    [k] more arrays have been read. *)
Definition the_draw (x : sample) (mask : option sample) (clip_min clip_max : Q)
    (pos : nat) : sample :=
  masked mask
    (map (fun j => clip_min + (clip_max - clip_min) * unif E pos j)
         (seq 0 (length x))) x.

Definition advance_unif (k : nat) (st : state) : state :=
  {| curr_iter := curr_iter st; unif_pos := k + unif_pos st;
     noise_pos := noise_pos st |}.

(** Whether the draw at [pos] qualifies, in the untargeted and in the targeted
    branch of the finder. *)
Definition hit_untargeted (x : sample) (y_p : Z) (mask : option sample)
    (clip_min clip_max : Q) (pos : nat) : bool :=
  negb (predict E false (the_draw x mask clip_min clip_max pos) =? y_p)%Z.

Definition hit_targeted (x : sample) (y : Z) (mask : option sample)
    (clip_min clip_max : Q) (pos : nat) : bool :=
  (predict E false (the_draw x mask clip_min clip_max pos) =? y)%Z.

Definition with_norm_theta (c : config) (n : norm_t) (th : Q) : config :=
  {| apply_softmax := apply_softmax c; input_shape := input_shape c;
     targeted := targeted c; norm := n; max_iter := max_iter c;
     max_eval := max_eval c; init_eval := init_eval c; init_size := init_size c;
     theta := th |}.

(** The adversarial test on one sample. *)
Definition flagged (target clip_min clip_max : Q) (s : sample) : bool :=
  first_flag (_adversarial_satisfactory E cfg [s] target clip_min clip_max).


Definition sum_squares (v : sample) : Q := Qsum (map (fun a => a * a) v).

(** Every element within the clip bounds; the contract of the uniform source
    and of a mask. *)
Definition in_range (lo hi : Q) (s : sample) : Prop :=
  Forall (fun a => lo <= a /\ a <= hi) s.

Definition unit_draws : Prop := forall k j, 0 <= unif E k j /\ unif E k j <= 1.

Definition mask_ok (mask : option sample) : Prop :=
  match mask with
  | None => True
  | Some m => Forall (fun a => 0 <= a /\ a <= 1) m
  end.



(** The classifier gives at least two scores. *)
Definition two_classes : Prop := forall s, (2 <= length (estimator E s))%nat.

(** The adversarial condition on a predicted class [p], for goal label [lbl]:
    the target for a targeted attack, the original's label otherwise. *)
Definition label_test (lbl p : Z) : bool :=
  if targeted cfg then (p =? lbl)%Z else negb (p =? lbl)%Z.

(** The softmax is monotone: it does not move the largest score. *)
Definition softmax_keeps_argmax : Prop :=
  forall row, argmax (softmax E row) = argmax row.

(** What may come with a caller-supplied initial example: its predicted
    label, as [_perturb] documents, or the estimator's row [generate] passes,
    with one score per class. *)
Definition init_pred_sound (adv_init : option sample)
    (init_pred : option (list Q)) : Prop :=
  forall a, adv_init = Some a ->
    init_pred = Some [inject_Z (predict E (apply_softmax cfg) a)]
    \/ exists row, init_pred = Some row /\ (2 <= length row)%nat.

(** A goal label, a sample that meets it, within the bounds. *)
Definition meets (lbl : Z) (found : option (sample * Q)) : Prop :=
  match found with
  | None => True
  | Some (s, t) =>
      t = inject_Z lbl
      /\ label_test lbl (predict E (apply_softmax cfg) s) = true
  end.

(** What the finder found has [n] elements. *)
Definition found_shape (n : nat) (found : option (sample * Q)) : Prop :=
  match found with
  | None => True
  | Some (s, _) => length s = n
  end.

(** Coordinate [j] of a sample exists and has the value [v]. *)
Definition coord_is (j : nat) (s : sample) (v : Q) : Prop :=
  exists a, nth_error s j = Some a /\ a == v.


(** *** The monad *)

Lemma bind_ret_inv {A B} (m : M A) (f : A -> M B) st r :
  bind m f st = Ret r -> exists a st', m st = Ret (a, st') /\ f a st' = Ret r.
Proof.
  unfold bind. destruct (m st) as [[a st']| | |]; try discriminate.
  intros H. exists a, st'. split; [reflexivity | exact H].
Qed.

Lemma lift_ret_inv {A} (o : outcome A) st a st' :
  lift o st = Ret (a, st') -> o = Ret a /\ st' = st.
Proof.
  unfold lift. destruct o; try discriminate.
  intros H. inversion H. split; reflexivity.
Qed.

Tactic Notation "run_bind" hyp(H) "as" ident(a) ident(st) ident(Hm) :=
  apply bind_ret_inv in H; destruct H as (a & st & Hm & H).

(** *** [generate] without a mask *)

(** C9. With initial adversarial examples and no mask, [generate] never
    returns: the blending loop subscripts the absent mask at its first sample
    and the call ends in a [TypeError].  (A batch without any element fails
    one statement earlier, at [np.min], with a [ValueError].) *)
Theorem generate_without_mask_raises :
  forall fuel x y a resume st,
    generate E cfg fuel x y None (Some a) resume st
    = Raise (if is_nil (concat x) then ValueError else TypeError).
Proof.
  intros fuel x y a resume st.
  unfold generate, bind, get_curr_iter, lift, batch_bounds.
  destruct (concat x) as [|q qs] eqn:Hx; [reflexivity|].
  destruct x as [|x0 xs]; [discriminate|].
  reflexivity.
Qed.

(** *** The mask is dropped *)

Lemma generate_ignores_mask :
  forall fuel x y m resume st,
    generate E cfg fuel x y (Some m) None resume st
    = generate E cfg fuel x y None None resume st.
Proof. reflexivity. Qed.

(** *** Failure of the initial-sample finder *)

Lemma targeted_same_label_fails :
  forall fuel x y init_pred adv_init mask clip_min clip_max st,
    targeted cfg = true ->
    _init_sample E cfg fuel x y y init_pred adv_init mask clip_min clip_max st
    = Ret (None, st).
Proof.
  intros. unfold _init_sample. rewrite H, Z.eqb_refl. reflexivity.
Qed.

Lemma perturb_on_failure :
  forall fuel x y y_p init_pred adv_init mask clip_min clip_max st st',
    _init_sample E cfg fuel x y y_p init_pred adv_init mask clip_min clip_max st
    = Ret (None, st') ->
    _perturb E cfg fuel x y y_p init_pred adv_init mask clip_min clip_max st
    = Ret (x, st').
Proof.
  intros. unfold _perturb, bind. rewrite H. reflexivity.
Qed.

Lemma perturb_all_on_failure :
  forall fuel start y preds init_preds x_adv_init clip_min clip_max ind val rest
         y_ind st st',
    label_arg cfg y ind = Ret y_ind ->
    _init_sample E cfg fuel val y_ind (nth ind preds 0%Z) (nth ind init_preds None)
      (nth ind x_adv_init None) None clip_min clip_max (with_curr_iter start st)
    = Ret (None, st') ->
    perturb_all E cfg fuel start y preds init_preds x_adv_init clip_min clip_max
      ind (val :: rest) st
    = (outs <- perturb_all E cfg fuel start y preds init_preds x_adv_init
                 clip_min clip_max (S ind) rest ;;
       ret (val :: outs)) st'.
Proof.
  intros. simpl. unfold bind at 1. simpl. unfold bind at 1.
  unfold lift at 1. rewrite H. unfold bind at 1.
  fold (with_curr_iter start st).
  rewrite (perturb_on_failure _ _ _ _ _ _ _ _ _ _ _ H0). reflexivity.
Qed.

Lemma perturb_all_same_labels :
  forall fuel start ys preds init_preds x_adv_init clip_min clip_max todo ind st,
    targeted cfg = true ->
    (forall i, (i < length todo)%nat ->
               nth_error ys (ind + i) = Some (nth (ind + i) preds 0%Z)) ->
    perturb_all E cfg fuel start (Some ys) preds init_preds x_adv_init
      clip_min clip_max ind todo st
    = Ret (todo, match todo with [] => st | _ => with_curr_iter start st end).
Proof.
  intros fuel start ys preds init_preds x_adv_init clip_min clip_max todo.
  induction todo as [|val rest IH]; intros ind st Ht Hy; [reflexivity|].
  assert (Hl : label_arg cfg (Some ys) ind = Ret (nth ind preds 0%Z)).
  { unfold label_arg. rewrite Ht.
    specialize (Hy O). rewrite Nat.add_0_r in Hy. rewrite Hy; [reflexivity|].
    simpl. lia. }
  rewrite (perturb_all_on_failure _ _ _ _ _ _ _ _ _ _ _ _ _ _ Hl
             (targeted_same_label_fails _ _ _ _ _ _ _ _ _ Ht)).
  unfold bind. rewrite IH; [| exact Ht |].
  - unfold ret. destruct rest; reflexivity.
  - intros i Hi. replace (S ind + i)%nat with (ind + S i)%nat by lia.
    apply Hy. simpl. lia.
Qed.

(** C4. When the finder returns [None] the sample is handed back as it came,
    without an exception, and the loop over the batch goes on with the next
    sample.  A targeted attack whose target is the predicted label is such a
    failure, so a batch whose targets are all the predicted labels comes back
    unchanged. *)
Theorem init_failure_returns_input :
  (forall fuel x y init_pred adv_init mask clip_min clip_max st,
      targeted cfg = true ->
      _init_sample E cfg fuel x y y init_pred adv_init mask clip_min clip_max st
      = Ret (None, st))
  /\ (forall fuel x y y_p init_pred adv_init mask clip_min clip_max st st',
      _init_sample E cfg fuel x y y_p init_pred adv_init mask clip_min clip_max st
      = Ret (None, st') ->
      _perturb E cfg fuel x y y_p init_pred adv_init mask clip_min clip_max st
      = Ret (x, st'))
  /\ (forall fuel start y preds init_preds x_adv_init clip_min clip_max ind val
             rest y_ind st st',
      label_arg cfg y ind = Ret y_ind ->
      _init_sample E cfg fuel val y_ind (nth ind preds 0%Z)
        (nth ind init_preds None) (nth ind x_adv_init None) None
        clip_min clip_max (with_curr_iter start st)
      = Ret (None, st') ->
      perturb_all E cfg fuel start y preds init_preds x_adv_init
        clip_min clip_max ind (val :: rest) st
      = (outs <- perturb_all E cfg fuel start y preds init_preds x_adv_init
                   clip_min clip_max (S ind) rest ;;
         ret (val :: outs)) st')
  /\ (forall fuel x mask resume st,
      targeted cfg = true ->
      concat x <> [] ->
      generate E cfg fuel x (Some (map (predict E (apply_softmax cfg)) x)) mask
        None resume st
      = Ret (x, with_curr_iter (start_of resume st) st)).
Proof.
  split; [exact targeted_same_label_fails|].
  split; [exact perturb_on_failure|].
  split; [exact perturb_all_on_failure|].
  intros fuel x mask resume st Ht Hx.
  unfold generate, bind, get_curr_iter, lift, batch_bounds.
  destruct (concat x) as [|q qs] eqn:Hc; [contradiction|].
  rewrite Ht. fold (start_of resume st).
  change (true && false) with false. cbv iota.
  rewrite perturb_all_same_labels; [| exact Ht |].
  - destruct x; [discriminate | reflexivity].
  - intros i Hi. simpl.
    rewrite (nth_error_nth' _ 0%Z); [reflexivity|].
    rewrite length_map. exact Hi.
Qed.

(** *** The step-size search *)

Lemma halvings_shift k epsilon : halvings k (epsilon / 2) = halvings (S k) epsilon.
Proof.
  unfold halvings. symmetry.
  exact (Nat.iter_succ_r k Q (fun e : Q => e / 2) epsilon).
Qed.

Lemma tested_shift cur upd target lo hi epsilon k :
  tested cur upd target lo hi (epsilon / 2) k
  = tested cur upd target lo hi epsilon (S k).
Proof. unfold tested, candidate. rewrite halvings_shift. reflexivity. Qed.

Lemma step_loop_first_success cur upd target lo hi :
  forall k fuel epsilon,
    (forall j, (j < k)%nat -> tested cur upd target lo hi epsilon j = false) ->
    tested cur upd target lo hi epsilon k = true ->
    (k < fuel)%nat ->
    step_loop E cfg fuel cur upd target lo hi epsilon
    = Ret (halvings (S k) epsilon, candidate cur upd epsilon k).
Proof.
  induction k as [|k IH]; intros fuel epsilon Hbefore Hk Hfuel;
    (destruct fuel as [|fuel]; [lia|]); simpl.
  - unfold tested, candidate in Hk. simpl in Hk. rewrite Hk. reflexivity.
  - pose proof (Hbefore O ltac:(lia)) as H0.
    unfold tested, candidate in H0. simpl in H0. rewrite H0.
    rewrite IH.
    + unfold candidate. rewrite !halvings_shift. reflexivity.
    + intros j Hj. rewrite tested_shift. apply Hbefore. lia.
    + rewrite tested_shift. exact Hk.
    + lia.
Qed.

Lemma step_loop_ret_inv cur upd target lo hi :
  forall fuel epsilon e p,
    step_loop E cfg fuel cur upd target lo hi epsilon = Ret (e, p) ->
    exists k, (k < fuel)%nat
      /\ e = halvings (S k) epsilon
      /\ p = candidate cur upd epsilon k
      /\ tested cur upd target lo hi epsilon k = true
      /\ (forall j, (j < k)%nat -> tested cur upd target lo hi epsilon j = false).
Proof.
  induction fuel as [|fuel IH]; intros epsilon e p H; [discriminate|].
  simpl in H.
  destruct (first_flag _) eqn:Hflag in H.
  - inversion H; subst. exists O. repeat split; try lia.
    + exact Hflag.
  - apply IH in H. destruct H as (k & Hk & He & Hp & Ht & Hb).
    exists (S k). repeat split.
    + lia.
    + rewrite He. apply halvings_shift.
    + rewrite Hp. unfold candidate. rewrite halvings_shift. reflexivity.
    + rewrite <- tested_shift. exact Ht.
    + intros [|j] Hj; [exact Hflag|].
      rewrite <- tested_shift. apply Hb. lia.
Qed.

Lemma step_loop_never cur upd target lo hi :
  forall fuel epsilon,
    (forall j, tested cur upd target lo hi epsilon j = false) ->
    step_loop E cfg fuel cur upd target lo hi epsilon = OutOfFuel.
Proof.
  induction fuel as [|fuel IH]; intros epsilon Hall; [reflexivity|].
  simpl. pose proof (Hall O) as H0. unfold tested, candidate in H0. simpl in H0.
  rewrite H0. apply IH. intros j. rewrite tested_shift. apply Hall.
Qed.

Lemma bs_loop_no_raise :
  forall fuel cur orig target n lo hi thr lower upper e,
    bs_loop E cfg fuel cur orig target n lo hi thr lower upper <> Raise e.
Proof.
  induction fuel as [|fuel IH]; intros; simpl;
    destruct (Qlt_bool thr (upper - lower)); try discriminate.
  apply IH.
Qed.

Lemma bs_loop_finite :
  forall fuel cur orig target n lo hi thr lower upper,
    bs_loop E cfg fuel cur orig target n lo hi thr lower upper <> NotFinite.
Proof.
  induction fuel as [|fuel IH]; intros; simpl;
    destruct (Qlt_bool thr (upper - lower)); try discriminate.
  apply IH.
Qed.

Lemma binary_search_no_raise :
  forall fuel cur orig target n lo hi thr e,
    _binary_search E cfg fuel cur orig target n lo hi thr <> Raise e.
Proof.
  intros. unfold _binary_search.
  destruct (bs_init cfg cur orig n thr) as [[ub lb] t].
  destruct (bs_loop E cfg fuel cur orig target n lo hi t lb ub) as [[l u]|e'| |] eqn:Hl;
    try discriminate.
  exfalso. exact (bs_loop_no_raise _ _ _ _ _ _ _ _ _ _ _ Hl).
Qed.

Lemma finite_ret_inv {A} (o : option A) st a st' :
  finite o st = Ret (a, st') -> o = Some a /\ st' = st.
Proof.
  unfold finite. destruct o; try discriminate.
  intros H. inversion H. split; reflexivity.
Qed.

Lemma all_some_ret_inv {A} (l : list (option A)) :
  forall l', all_some l = Some l' -> l = map (@Some A) l'.
Proof.
  induction l as [|[a|] l IH]; simpl; intros l' H.
  - inversion H. reflexivity.
  - destruct (all_some l) as [t|]; [|discriminate].
    inversion H; subst. simpl. f_equal. apply IH. reflexivity.
  - discriminate.
Qed.

Lemma all_some_length {A} (l : list (option A)) l' :
  all_some l = Some l' -> length l' = length l.
Proof.
  intros H. apply all_some_ret_inv in H. subst. rewrite length_map. reflexivity.
Qed.




Lemma vdiv_ret_inv v c u :
  vdiv v c = Some u -> u = map (fun a => a / c) v /\ (v = [] \/ ~ c == 0).
Proof.
  unfold vdiv. destruct v as [|a v].
  - intros H. inversion H. split; [reflexivity | left; reflexivity].
  - destruct (Qeq_bool c 0) eqn:H0; [discriminate|].
    intros H. inversion H. split; [reflexivity|]. right.
    intros Hc. apply Qeq_bool_iff in Hc. congruence.
Qed.

Lemma mean_axis0_length rows g : mean_axis0 cfg rows = Some g -> length g = numel cfg.
Proof.
  unfold mean_axis0. intros H. apply all_some_length in H.
  rewrite H, length_map, length_seq. reflexivity.
Qed.

Lemma estimate_grad_length flags noise grad :
  estimate_grad cfg flags noise = Some grad -> length grad = numel cfg.
Proof.
  unfold estimate_grad. intros H.
  destruct (Qmean _) as [mean|]; [|exact (mean_axis0_length _ _ H)].
  destruct (Qeq_bool mean 1); [exact (mean_axis0_length _ _ H)|].
  destruct (Qeq_bool mean (-(1))); [|exact (mean_axis0_length _ _ H)].
  destruct (mean_axis0 cfg noise) as [g|] eqn:Hg; [|discriminate].
  inversion H. unfold vneg. rewrite length_map. exact (mean_axis0_length _ _ Hg).
Qed.

Lemma normalize_update_length grad upd :
  normalize_update E cfg grad = Some upd -> length upd = length grad.
Proof.
  unfold normalize_update. destruct (norm_eq_2 (norm cfg)); intros H.
  - apply vdiv_ret_inv in H. destruct H as [-> _]. apply length_map.
  - inversion H. apply length_map.
Qed.

(** The direction estimate neither raises nor loops: it returns, or it has
    divided by zero. *)
Lemma compute_update_cases :
  forall cur num_eval delta target mask lo hi st,
    (exists upd,
        _compute_update E cfg cur num_eval delta target mask lo hi st
        = Ret (upd, {| curr_iter := curr_iter st; unif_pos := unif_pos st;
                       noise_pos := (noise_pos st + num_eval)%nat |}))
    \/ _compute_update E cfg cur num_eval delta target mask lo hi st = NotFinite.
Proof.
  intros. unfold _compute_update, bind, draw_noise, finite.
  destruct (probes E _ cur delta mask lo hi) as [[ev rn]|]; [|right; reflexivity].
  destruct (estimate_grad cfg _ rn) as [grad|]; [|right; reflexivity].
  destruct (normalize_update E cfg grad) as [upd|]; [|right; reflexivity].
  left. eexists. reflexivity.
Qed.

(** What a direction estimate that returns went through: every division of
    it had a divisor other than zero. *)
Lemma compute_update_ret_inv :
  forall cur num_eval delta target mask lo hi st upd st',
    _compute_update E cfg cur num_eval delta target mask lo hi st = Ret (upd, st') ->
    exists drawn eval_samples applied grad,
      draw_noise E cfg num_eval st = Ret (drawn, st')
      /\ probes E drawn cur delta mask lo hi = Some (eval_samples, applied)
      /\ estimate_grad cfg (_adversarial_satisfactory E cfg eval_samples target lo hi)
           applied = Some grad
      /\ normalize_update E cfg grad = Some upd.
Proof.
  intros cur num_eval delta target mask lo hi st upd st' H.
  unfold _compute_update in H.
  run_bind H as drawn st1 Hdraw.
  run_bind H as probed st2 Hp. apply finite_ret_inv in Hp. destruct Hp as [Hp ->].
  destruct probed as [ev rn].
  run_bind H as grad st2 Hg. apply finite_ret_inv in Hg. destruct Hg as [Hg ->].
  apply finite_ret_inv in H. destruct H as [H ->].
  exists drawn, ev, rn, grad. repeat split; assumption.
Qed.

Lemma attack_iteration_ret_inv :
  forall fuel cur orig target mask lo hi st cur' st',
    attack_iteration E cfg fuel cur orig target mask lo hi st = Ret (cur', st') ->
    exists cur_bs upd st1 k,
      _binary_search E cfg fuel cur orig target (norm cfg) lo hi None = Ret cur_bs
      /\ _compute_update E cfg cur_bs (get_num_eval E cfg (curr_iter st))
           (_compute_delta E cfg (curr_iter st) cur orig lo hi) target mask lo hi st
         = Ret (upd, st1)
      /\ tested cur_bs upd target lo hi
           (initial_epsilon E (curr_iter st) (distance E cfg orig cur_bs)) k = true
      /\ (forall j, (j < k)%nat ->
             tested cur_bs upd target lo hi
               (initial_epsilon E (curr_iter st) (distance E cfg orig cur_bs)) j
             = false)
      /\ cur' = vclip (candidate cur_bs upd
                         (initial_epsilon E (curr_iter st) (distance E cfg orig cur_bs))
                         k) lo hi
      /\ st' = with_curr_iter (curr_iter st + 1) st1.
Proof.
  intros fuel cur orig target mask lo hi st cur' st' H.
  unfold attack_iteration in H.
  run_bind H as it st0 Hget. unfold get_curr_iter in Hget.
  inversion Hget; subst it st0. clear Hget.
  run_bind H as cur_bs st0 Hbs. apply lift_ret_inv in Hbs. destruct Hbs as [Hbs ->].
  run_bind H as upd st_upd Hupd.
  run_bind H as found st0 Hstep. apply lift_ret_inv in Hstep.
  destruct Hstep as [Hstep ->]. destruct found as [e p].
  apply step_loop_ret_inv in Hstep.
  destruct Hstep as (k & _ & _ & Hp & Ht & Hb).
  run_bind H as u st0 Hset. unfold set_curr_iter in Hset.
  inversion Hset; subst u st0. clear Hset.
  unfold ret in H. inversion H; subst cur' st'. clear H.
  exists cur_bs, upd, st_upd, k. simpl snd. rewrite Hp.
  repeat split; try assumption.
Qed.

Lemma binary_search_finite :
  forall fuel cur orig target n lo hi thr,
    _binary_search E cfg fuel cur orig target n lo hi thr <> NotFinite.
Proof.
  intros. unfold _binary_search.
  destruct (bs_init cfg cur orig n thr) as [[ub lb] t].
  destruct (bs_loop E cfg fuel cur orig target n lo hi t lb ub) as [[l u]|e'| |] eqn:Hl;
    try discriminate.
  exfalso. exact (bs_loop_finite _ _ _ _ _ _ _ _ _ _ Hl).
Qed.

Lemma attack_never_returns :
  forall target lo hi,
    (forall s, first_flag (_adversarial_satisfactory E cfg [s] target lo hi) = false) ->
    (1 <= max_iter cfg)%nat ->
    forall fuel initial orig mask st,
      _attack E cfg fuel initial orig target mask lo hi st = OutOfFuel
      \/ (exists cur_bs,
            _binary_search E cfg fuel initial orig target (norm cfg) lo hi None
            = Ret cur_bs
            /\ _compute_update E cfg cur_bs (get_num_eval E cfg (curr_iter st))
                 (_compute_delta E cfg (curr_iter st) initial orig lo hi)
                 target mask lo hi st
               = NotFinite
            /\ _attack E cfg fuel initial orig target mask lo hi st = NotFinite).
Proof.
  intros target lo hi Hnever Hiter fuel initial orig mask st.
  set (r := _attack E cfg fuel initial orig target mask lo hi st).
  assert (Hr : r = _attack E cfg fuel initial orig target mask lo hi st)
    by reflexivity.
  clearbody r. unfold _attack in Hr. destruct (max_iter cfg) as [|n]; [lia|].
  simpl in Hr. unfold bind at 1 in Hr. unfold attack_iteration in Hr.
  unfold bind at 1 in Hr. unfold get_curr_iter at 1 in Hr. unfold bind at 1 in Hr.
  unfold lift at 1 in Hr.
  destruct (_binary_search E cfg fuel initial orig target (norm cfg) lo hi None)
    as [cur_bs|e| |] eqn:Hbs;
    [| exfalso; exact (binary_search_no_raise _ _ _ _ _ _ _ _ _ Hbs)
     | left; exact Hr
     | exfalso; exact (binary_search_finite _ _ _ _ _ _ _ _ Hbs)].
  unfold bind at 1 in Hr.
  destruct (compute_update_cases cur_bs (get_num_eval E cfg (curr_iter st))
              (_compute_delta E cfg (curr_iter st) initial orig lo hi)
              target mask lo hi st) as [[upd Hupd] | Hupd].
  - left. rewrite Hupd in Hr. unfold bind at 1 in Hr. unfold lift at 1 in Hr.
    rewrite step_loop_never in Hr; [exact Hr|].
    intros j. unfold tested. apply Hnever.
  - right. exists cur_bs. rewrite Hupd in Hr. repeat split; [exact Hupd | exact Hr].
Qed.

(** C7. The step-size search of one pass of the main loop starts from
    [2 * dist / sqrt(curr_iter + 1)], where [curr_iter] counts the passes,
    halves before every test and stops at the first halving whose sample is
    adversarial; given such a halving it returns
    with it, and when no tested sample is adversarial no amount of fuel lets
    the loop, or the attack around it, return: the attack is still in its
    first pass when the fuel is spent, unless the direction estimate of that
    pass has divided by zero. *)
Theorem step_size_search_unbounded :
  (forall fuel cur orig target mask lo hi st cur' st',
      attack_iteration E cfg fuel cur orig target mask lo hi st = Ret (cur', st') ->
      exists cur_bs upd st1 k,
        _binary_search E cfg fuel cur orig target (norm cfg) lo hi None = Ret cur_bs
        /\ _compute_update E cfg cur_bs (get_num_eval E cfg (curr_iter st))
             (_compute_delta E cfg (curr_iter st) cur orig lo hi) target mask lo hi st
           = Ret (upd, st1)
        /\ tested cur_bs upd target lo hi
             (2 * distance E cfg orig cur_bs / Qsqrt E (Qnat (curr_iter st + 1))) k
           = true
        /\ (forall j, (j < k)%nat ->
               tested cur_bs upd target lo hi
                 (2 * distance E cfg orig cur_bs / Qsqrt E (Qnat (curr_iter st + 1))) j
               = false)
        /\ cur' = vclip (candidate cur_bs upd
                           (2 * distance E cfg orig cur_bs
                            / Qsqrt E (Qnat (curr_iter st + 1))) k) lo hi
        /\ curr_iter st' = (curr_iter st + 1)%nat)
  /\ (forall cur upd target lo hi k fuel epsilon,
      (forall j, (j < k)%nat -> tested cur upd target lo hi epsilon j = false) ->
      tested cur upd target lo hi epsilon k = true ->
      (k < fuel)%nat ->
      step_loop E cfg fuel cur upd target lo hi epsilon
      = Ret (halvings (S k) epsilon, candidate cur upd epsilon k))
  /\ (forall cur upd target lo hi epsilon,
      (forall j, tested cur upd target lo hi epsilon j = false) ->
      forall fuel,
        step_loop E cfg fuel cur upd target lo hi epsilon = OutOfFuel)
  /\ (forall target lo hi,
      (forall s, first_flag (_adversarial_satisfactory E cfg [s] target lo hi) = false) ->
      (1 <= max_iter cfg)%nat ->
      forall fuel initial orig mask st,
        _attack E cfg fuel initial orig target mask lo hi st = OutOfFuel
        \/ (exists cur_bs,
              _binary_search E cfg fuel initial orig target (norm cfg) lo hi None
              = Ret cur_bs
              /\ _compute_update E cfg cur_bs (get_num_eval E cfg (curr_iter st))
                   (_compute_delta E cfg (curr_iter st) initial orig lo hi)
                   target mask lo hi st
                 = NotFinite
              /\ _attack E cfg fuel initial orig target mask lo hi st = NotFinite)).
Proof.
  split; [| split; [| split]].
  - intros fuel cur orig target mask lo hi st cur' st' H.
    apply attack_iteration_ret_inv in H.
    destruct H as (cur_bs & upd & st1 & k & H1 & H2 & H3 & H4 & H5 & ->).
    exists cur_bs, upd, st1, k. repeat split; try assumption.
  - intros. apply step_loop_first_success; assumption.
  - intros. apply step_loop_never; assumption.
  - exact attack_never_returns.
Qed.

(** *** Comparisons on rationals *)

Lemma Qlt_bool_true a b : Qlt_bool a b = true <-> a < b.
Proof.
  unfold Qlt_bool. rewrite negb_true_iff. split; intros H.
  - apply Qnot_le_lt. intros Hle. apply Qle_bool_iff in Hle. congruence.
  - destruct (Qle_bool b a) eqn:Hb; [|reflexivity].
    apply Qle_bool_iff in Hb. exfalso. exact (Qlt_not_le _ _ H Hb).
Qed.

Lemma Qlt_bool_false a b : Qlt_bool a b = false <-> b <= a.
Proof.
  unfold Qlt_bool. rewrite negb_false_iff. apply Qle_bool_iff.
Qed.

(** *** Termination of the binary search *)

Lemma pow2_succ k : pow2 (S k) == 2 * pow2 k.
Proof.
  unfold pow2. rewrite Nat2Z.inj_succ, Z.pow_succ_r by lia.
  rewrite inject_Z_mult. reflexivity.
Qed.

Lemma pow2_pos k : 0 < pow2 k.
Proof.
  unfold pow2. change 0 with (inject_Z 0). rewrite <- Zlt_Qlt.
  apply Z.pow_pos_nonneg; lia.
Qed.

Lemma bs_loop_terminates cur orig target n lo hi thr :
  forall k fuel lower upper,
    (k <= fuel)%nat ->
    upper - lower <= thr * pow2 k ->
    exists l u,
      bs_loop E cfg fuel cur orig target n lo hi thr lower upper = Ret (l, u).
Proof.
  induction k as [|k IH]; intros fuel lower upper Hfuel Hwidth.
  - assert (Hstop : Qlt_bool thr (upper - lower) = false).
    { apply Qlt_bool_false. change (pow2 0) with 1 in Hwidth. lra. }
    destruct fuel; simpl; rewrite Hstop; eauto.
  - destruct fuel as [|fuel]; [lia|]. simpl.
    destruct (Qlt_bool thr (upper - lower)); [|eauto].
    apply IH; [lia|]. rewrite pow2_succ in Hwidth.
    assert (Hw : upper - lower <= 2 * (thr * pow2 k)).
    { eapply Qle_trans; [exact Hwidth|]. apply Qle_lteq. right. ring. }
    clear Hwidth. set (w := thr * pow2 k) in *.
    destruct (first_flag _); simpl; unfold Qdiv; change (/ 2) with (1 # 2); lra.
Qed.

Lemma binary_search_init_returns :
  forall fuel cur orig target lo hi,
    (10 <= fuel)%nat ->
    exists r,
      _binary_search E cfg fuel cur orig target L2 lo hi (Some (1 # 1000)) = Ret r.
Proof.
  intros fuel cur orig target lo hi Hfuel. unfold _binary_search. simpl.
  destruct (bs_loop_terminates cur orig target L2 lo hi (1 # 1000) 10 fuel 0 1 Hfuel)
    as (l & u & Hl).
  - vm_compute. discriminate.
  - rewrite Hl. eauto.
Qed.

(** *** The two loops of the initial-sample finder *)

Lemma advance_unif_0 st : advance_unif 0 st = st.
Proof. destruct st. reflexivity. Qed.

Lemma advance_unif_succ k st : advance_unif k (advance_unif 1 st) = advance_unif (S k) st.
Proof. unfold advance_unif. simpl. f_equal. lia. Qed.

Lemma untargeted_draws_step n fuel x y_p mask lo hi st :
  untargeted_draws E cfg (S n) fuel x y_p mask lo hi st
  = if negb (predict E false (the_draw x mask lo hi (unif_pos st)) =? y_p)%Z
    then (r <- lift (_binary_search E cfg fuel (the_draw x mask lo hi (unif_pos st))
                       x (inject_Z y_p) L2 lo hi (Some (1 # 1000))) ;;
          ret (Some (r, inject_Z y_p))) (advance_unif 1 st)
    else untargeted_draws E cfg n fuel x y_p mask lo hi (advance_unif 1 st).
Proof.
  simpl. unfold bind at 1. unfold draw_uniform. fold (the_draw x mask lo hi (unif_pos st)).
  destruct (negb _); reflexivity.
Qed.

Lemma targeted_draws_step n fuel x y mask lo hi acc st :
  targeted_draws E cfg (S n) fuel x y mask lo hi acc st
  = if (predict E false (the_draw x mask lo hi (unif_pos st)) =? y)%Z
    then (r <- lift (_binary_search E cfg fuel (the_draw x mask lo hi (unif_pos st))
                       x (inject_Z y) L2 lo hi (Some (1 # 1000))) ;;
          targeted_draws E cfg n fuel x y mask lo hi
            (Some (r, inject_Z (predict E false (the_draw x mask lo hi (unif_pos st))))))
           (advance_unif 1 st)
    else targeted_draws E cfg n fuel x y mask lo hi acc (advance_unif 1 st).
Proof.
  simpl. unfold bind at 1. unfold draw_uniform. fold (the_draw x mask lo hi (unif_pos st)).
  destruct (_ =? _)%Z; reflexivity.
Qed.

Lemma untargeted_draws_none fuel x y_p mask lo hi :
  forall n st,
    (forall j, (j < n)%nat ->
               hit_untargeted x y_p mask lo hi (j + unif_pos st) = false) ->
    untargeted_draws E cfg n fuel x y_p mask lo hi st = Ret (None, advance_unif n st).
Proof.
  induction n as [|n IH]; intros st Hnone.
  - simpl. unfold ret. rewrite advance_unif_0. reflexivity.
  - rewrite untargeted_draws_step.
    pose proof (Hnone O ltac:(lia)) as H0. unfold hit_untargeted in H0.
    simpl in H0. rewrite H0. rewrite IH.
    + rewrite advance_unif_succ. reflexivity.
    + intros j Hj. replace (j + unif_pos (advance_unif 1 st))%nat with (S j + unif_pos st)%nat by (simpl; lia).
      apply (Hnone (S j)). lia.
Qed.

Lemma untargeted_draws_first fuel x y_p mask lo hi :
  (10 <= fuel)%nat ->
  forall n st k,
    (k < n)%nat ->
    (forall j, (j < k)%nat ->
               hit_untargeted x y_p mask lo hi (j + unif_pos st) = false) ->
    hit_untargeted x y_p mask lo hi (k + unif_pos st) = true ->
    exists r,
      _binary_search E cfg fuel (the_draw x mask lo hi (k + unif_pos st)) x
        (inject_Z y_p) L2 lo hi (Some (1 # 1000)) = Ret r
      /\ untargeted_draws E cfg n fuel x y_p mask lo hi st
         = Ret (Some (r, inject_Z y_p), advance_unif (S k) st).
Proof.
  intros Hfuel.
  induction n as [|n IH]; intros st k Hk Hbefore Hhit; [lia|].
  rewrite untargeted_draws_step. destruct k as [|k].
  - unfold hit_untargeted in Hhit. simpl in Hhit. rewrite Hhit.
    destruct (binary_search_init_returns fuel (the_draw x mask lo hi (unif_pos st))
                x (inject_Z y_p) lo hi Hfuel) as [r Hr].
    exists r. split; [exact Hr|].
    unfold bind, lift. simpl. rewrite Hr. reflexivity.
  - pose proof (Hbefore O ltac:(lia)) as H0. unfold hit_untargeted in H0.
    simpl in H0. rewrite H0.
    destruct (IH (advance_unif 1 st) k) as [r [Hr Hrun]].
    + lia.
    + intros j Hj. replace (j + unif_pos (advance_unif 1 st))%nat with (S j + unif_pos st)%nat by (simpl; lia).
      apply (Hbefore (S j)). lia.
    + replace (k + unif_pos (advance_unif 1 st))%nat with (S k + unif_pos st)%nat by (simpl; lia).
      exact Hhit.
    + exists r.
      replace (k + unif_pos (advance_unif 1 st))%nat with (S k + unif_pos st)%nat
        in Hr by (simpl; lia).
      split; [exact Hr|].
      rewrite Hrun, advance_unif_succ. reflexivity.
Qed.

Lemma targeted_draws_none fuel x y mask lo hi :
  forall n acc st,
    (forall j, (j < n)%nat ->
               hit_targeted x y mask lo hi (j + unif_pos st) = false) ->
    targeted_draws E cfg n fuel x y mask lo hi acc st = Ret (acc, advance_unif n st).
Proof.
  induction n as [|n IH]; intros acc st Hnone.
  - simpl. unfold ret. rewrite advance_unif_0. reflexivity.
  - rewrite targeted_draws_step.
    pose proof (Hnone O ltac:(lia)) as H0. unfold hit_targeted in H0.
    simpl in H0. rewrite H0. rewrite IH.
    + rewrite advance_unif_succ. reflexivity.
    + intros j Hj. replace (j + unif_pos (advance_unif 1 st))%nat with (S j + unif_pos st)%nat by (simpl; lia).
      apply (Hnone (S j)). lia.
Qed.

Lemma targeted_draws_last fuel x y mask lo hi :
  (10 <= fuel)%nat ->
  forall n acc st k,
    (k < n)%nat ->
    hit_targeted x y mask lo hi (k + unif_pos st) = true ->
    (forall j, (k < j < n)%nat ->
               hit_targeted x y mask lo hi (j + unif_pos st) = false) ->
    exists r,
      _binary_search E cfg fuel (the_draw x mask lo hi (k + unif_pos st)) x
        (inject_Z y) L2 lo hi (Some (1 # 1000)) = Ret r
      /\ targeted_draws E cfg n fuel x y mask lo hi acc st
         = Ret (Some (r, inject_Z y), advance_unif n st).
Proof.
  intros Hfuel.
  induction n as [|n IH]; intros acc st k Hk Hhit Hafter; [lia|].
  rewrite targeted_draws_step. destruct k as [|k].
  - pose proof Hhit as Hy. unfold hit_targeted in Hy. simpl in Hy. rewrite Hy.
    apply Z.eqb_eq in Hy.
    destruct (binary_search_init_returns fuel (the_draw x mask lo hi (unif_pos st))
                x (inject_Z y) lo hi Hfuel) as [r Hr].
    exists r. split; [exact Hr|].
    unfold bind, lift. simpl. rewrite Hr, Hy.
    rewrite targeted_draws_none.
    + rewrite advance_unif_succ. reflexivity.
    + intros j Hj. replace (j + unif_pos (advance_unif 1 st))%nat with (S j + unif_pos st)%nat by (simpl; lia).
      apply (Hafter (S j)). lia.
  - assert (Hrest : forall acc',
               exists r,
                 _binary_search E cfg fuel (the_draw x mask lo hi (S k + unif_pos st))
                   x (inject_Z y) L2 lo hi (Some (1 # 1000)) = Ret r
                 /\ targeted_draws E cfg n fuel x y mask lo hi acc' (advance_unif 1 st)
                    = Ret (Some (r, inject_Z y), advance_unif (S n) st)).
    { intros acc'. destruct (IH acc' (advance_unif 1 st) k) as [r [Hr Hrun]].
      - lia.
      - replace (k + unif_pos (advance_unif 1 st))%nat with (S k + unif_pos st)%nat by (simpl; lia).
        exact Hhit.
      - intros j Hj. replace (j + unif_pos (advance_unif 1 st))%nat with (S j + unif_pos st)%nat by (simpl; lia).
        apply (Hafter (S j)). lia.
      - exists r.
        replace (k + unif_pos (advance_unif 1 st))%nat with (S k + unif_pos st)%nat
          in Hr by (simpl; lia).
        split; [exact Hr|].
        rewrite Hrun, advance_unif_succ. reflexivity. }
    destruct (predict E false (the_draw x mask lo hi (unif_pos st)) =? y)%Z.
    + destruct (binary_search_init_returns fuel (the_draw x mask lo hi (unif_pos st))
                  x (inject_Z y) lo hi Hfuel) as [r0 Hr0].
      unfold bind, lift. rewrite Hr0. apply Hrest.
    + apply Hrest.
Qed.

Lemma init_sample_untargeted fuel x y y_p init_pred mask lo hi st :
  targeted cfg = false ->
  _init_sample E cfg fuel x y y_p init_pred None mask lo hi st
  = untargeted_draws E cfg (init_size cfg) fuel x y_p mask lo hi st.
Proof. intros H. unfold _init_sample. rewrite H. reflexivity. Qed.

Lemma init_sample_targeted fuel x y y_p init_pred mask lo hi st :
  targeted cfg = true ->
  y <> y_p ->
  _init_sample E cfg fuel x y y_p init_pred None mask lo hi st
  = targeted_draws E cfg (init_size cfg) fuel x y mask lo hi None st.
Proof.
  intros H Hy. unfold _init_sample. rewrite H.
  apply Z.eqb_neq in Hy. rewrite Hy. reflexivity.
Qed.

(** C5. Without a caller-supplied initial example, the untargeted finder
    returns the projection of the first draw, among [init_size], whose class
    differs from the original's label, and reads no draw after it; the
    targeted finder reads all [init_size] draws and returns the projection of
    the last one classified as the target.  Either returns [None] when no draw
    qualifies. *)
Theorem init_sample_selection_policies :
  forall fuel x y y_p init_pred mask lo hi st,
    (10 <= fuel)%nat ->
    (targeted cfg = false ->
       ((forall j, (j < init_size cfg)%nat ->
                   hit_untargeted x y_p mask lo hi (j + unif_pos st) = false) ->
        _init_sample E cfg fuel x y y_p init_pred None mask lo hi st
        = Ret (None, advance_unif (init_size cfg) st))
       /\ (forall k,
            (k < init_size cfg)%nat ->
            (forall j, (j < k)%nat ->
                       hit_untargeted x y_p mask lo hi (j + unif_pos st) = false) ->
            hit_untargeted x y_p mask lo hi (k + unif_pos st) = true ->
            exists r,
              _binary_search E cfg fuel (the_draw x mask lo hi (k + unif_pos st)) x
                (inject_Z y_p) L2 lo hi (Some (1 # 1000)) = Ret r
              /\ _init_sample E cfg fuel x y y_p init_pred None mask lo hi st
                 = Ret (Some (r, inject_Z y_p), advance_unif (S k) st)))
    /\ (targeted cfg = true -> y <> y_p ->
       ((forall j, (j < init_size cfg)%nat ->
                   hit_targeted x y mask lo hi (j + unif_pos st) = false) ->
        _init_sample E cfg fuel x y y_p init_pred None mask lo hi st
        = Ret (None, advance_unif (init_size cfg) st))
       /\ (forall k,
            (k < init_size cfg)%nat ->
            hit_targeted x y mask lo hi (k + unif_pos st) = true ->
            (forall j, (k < j < init_size cfg)%nat ->
                       hit_targeted x y mask lo hi (j + unif_pos st) = false) ->
            exists r,
              _binary_search E cfg fuel (the_draw x mask lo hi (k + unif_pos st)) x
                (inject_Z y) L2 lo hi (Some (1 # 1000)) = Ret r
              /\ _init_sample E cfg fuel x y y_p init_pred None mask lo hi st
                 = Ret (Some (r, inject_Z y), advance_unif (init_size cfg) st))).
Proof.
  intros fuel x y y_p init_pred mask lo hi st Hfuel. split.
  - intros Ht. rewrite (init_sample_untargeted _ _ _ _ _ _ _ _ _ Ht). split.
    + apply untargeted_draws_none.
    + intros k. apply untargeted_draws_first. exact Hfuel.
  - intros Ht Hy. rewrite (init_sample_targeted _ _ _ _ _ _ _ _ _ Ht Hy). split.
    + apply targeted_draws_none.
    + intros k. apply targeted_draws_last. exact Hfuel.
Qed.

(** *** The projection inside the finder ignores the configured norm *)

Section NormIndependence.

Variables (n' : norm_t) (th' : Q).
Let cfg' := with_norm_theta cfg n' th'.

Lemma binary_search_fixed_norm :
  forall fuel cur orig target lo hi thr,
    _binary_search E cfg' fuel cur orig target L2 lo hi (Some thr)
    = _binary_search E cfg fuel cur orig target L2 lo hi (Some thr).
Proof. reflexivity. Qed.

Lemma init_sample_fixed_norm :
  forall fuel x y y_p init_pred adv_init mask lo hi st,
    _init_sample E cfg' fuel x y y_p init_pred adv_init mask lo hi st
    = _init_sample E cfg fuel x y y_p init_pred adv_init mask lo hi st.
Proof. reflexivity. Qed.

End NormIndependence.

(** C10. Each successful draw of the finder, in either branch, is projected by
    a binary search called with norm 2 and threshold 0.001, which starts from
    the bounds (0, 1); so the finder's result is the same whatever norm and
    [theta] are configured.  The search of the main loop takes both from the
    configuration. *)
Theorem init_projection_fixed_norm_and_threshold :
  (forall n fuel x y_p mask lo hi st,
      untargeted_draws E cfg (S n) fuel x y_p mask lo hi st
      = if negb (predict E false (the_draw x mask lo hi (unif_pos st)) =? y_p)%Z
        then (r <- lift (_binary_search E cfg fuel
                           (the_draw x mask lo hi (unif_pos st)) x (inject_Z y_p)
                           L2 lo hi (Some (1 # 1000))) ;;
              ret (Some (r, inject_Z y_p))) (advance_unif 1 st)
        else untargeted_draws E cfg n fuel x y_p mask lo hi (advance_unif 1 st))
  /\ (forall n fuel x y mask lo hi acc st,
      targeted_draws E cfg (S n) fuel x y mask lo hi acc st
      = if (predict E false (the_draw x mask lo hi (unif_pos st)) =? y)%Z
        then (r <- lift (_binary_search E cfg fuel
                           (the_draw x mask lo hi (unif_pos st)) x (inject_Z y)
                           L2 lo hi (Some (1 # 1000))) ;;
              targeted_draws E cfg n fuel x y mask lo hi
                (Some (r, inject_Z (predict E false
                                      (the_draw x mask lo hi (unif_pos st))))))
               (advance_unif 1 st)
        else targeted_draws E cfg n fuel x y mask lo hi acc (advance_unif 1 st))
  /\ (forall cur orig, bs_init cfg cur orig L2 (Some (1 # 1000)) = (1, 0, 1 # 1000))
  /\ (forall n' th' fuel x y y_p init_pred adv_init mask lo hi st,
      _init_sample E (with_norm_theta cfg n' th') fuel x y y_p init_pred adv_init
        mask lo hi st
      = _init_sample E cfg fuel x y y_p init_pred adv_init mask lo hi st)
  /\ (forall cur orig,
      bs_init cfg cur orig (norm cfg) None
      = match norm cfg with
        | L2 => (1, 0, theta cfg)
        | Linf =>
            (linf_norm (vsub orig cur), 0,
             Qminimum (linf_norm (vsub orig cur) * theta cfg) (theta cfg))
        end).
Proof.
  split; [exact untargeted_draws_step|].
  split; [exact targeted_draws_step|].
  split; [reflexivity|].
  split; [exact init_sample_fixed_norm|].
  intros. unfold bs_init. destruct (norm cfg); reflexivity.
Qed.

(** *** The binary search is the bisection of the specification *)

Ltac qlin := unfold Qdiv; change (/ 2) with (1 # 2); lra.

Lemma Qplus_comm_eq (a b : Q) : (a + b)%Q = (b + a)%Q.
Proof.
  unfold Qplus. f_equal; [apply Z.add_comm | apply Pos.mul_comm].
Qed.

Lemma interpolate_spec cur orig alpha n :
  _interpolate cur orig alpha n = spec_result orig cur n alpha.
Proof.
  unfold _interpolate, spec_result. destruct n; simpl.
  - unfold vadd, vscale. revert cur.
    induction orig as [|o orig IH]; intros [|c cur]; simpl; try reflexivity.
    rewrite IH. reflexivity.
  - unfold vclip_box. revert cur.
    induction orig as [|o orig IH]; intros [|c cur]; simpl; try reflexivity.
    rewrite IH. reflexivity.
Qed.

Lemma bs_loop_sound cur orig target n lo hi thr :
  forall fuel lower upper l u,
    bs_loop E cfg fuel cur orig target n lo hi thr lower upper = Ret (l, u) ->
    bisection (flagged target lo hi) orig cur n thr lower upper
      (spec_result orig cur n u).
Proof.
  induction fuel as [|fuel IH]; intros lower upper l u H; simpl in H;
    destruct (Qlt_bool thr (upper - lower)) eqn:Hc; try discriminate;
    try (inversion H; subst; apply bisection_stop; apply Qlt_bool_false; exact Hc).
  apply Qlt_bool_true in Hc.
  rewrite interpolate_spec, (Qplus_comm_eq upper lower) in H.
  fold (flagged target lo hi (spec_result orig cur n ((lower + upper) / 2))) in H.
  destruct (flagged target lo hi (spec_result orig cur n ((lower + upper) / 2))) eqn:Hf;
    simpl in H; apply IH in H.
  - apply bisection_adversarial; assumption.
  - apply bisection_not_adversarial; assumption.
Qed.

Lemma bs_loop_complete cur orig target n lo hi thr :
  forall lower upper r,
    bisection (flagged target lo hi) orig cur n thr lower upper r ->
    exists fuel l u,
      bs_loop E cfg fuel cur orig target n lo hi thr lower upper = Ret (l, u)
      /\ r = spec_result orig cur n u.
Proof.
  intros lower upper r H. induction H as
    [lower upper Hstop
    |lower upper r Hgo Hadv _ (fuel & l & u & Hrun & Hr)
    |lower upper r Hgo Hadv _ (fuel & l & u & Hrun & Hr)].
  - exists O, lower, upper. simpl.
    apply Qlt_bool_false in Hstop. rewrite Hstop. split; reflexivity.
  - exists (S fuel), l, u. simpl.
    apply Qlt_bool_true in Hgo. rewrite Hgo.
    rewrite interpolate_spec, (Qplus_comm_eq upper lower).
    fold (flagged target lo hi (spec_result orig cur n ((lower + upper) / 2))).
    rewrite Hadv. simpl. split; assumption.
  - exists (S fuel), l, u. simpl.
    apply Qlt_bool_true in Hgo. rewrite Hgo.
    rewrite interpolate_spec, (Qplus_comm_eq upper lower).
    fold (flagged target lo hi (spec_result orig cur n ((lower + upper) / 2))).
    rewrite Hadv. simpl. split; assumption.
Qed.

Lemma bs_init_spec cur orig n :
  bs_init cfg cur orig n None
  = (fst (spec_start orig cur n (theta cfg)), 0, snd (spec_start orig cur n (theta cfg))).
Proof. unfold bs_init, spec_start. destruct n; reflexivity. Qed.

Lemma Qmaximum_l a b : a <= Qmaximum a b.
Proof.
  unfold Qmaximum. destruct (Qlt_bool a b) eqn:H.
  - apply Qlt_bool_true in H. lra.
  - lra.
Qed.

Lemma Qmaximum_r a b : b <= Qmaximum a b.
Proof.
  unfold Qmaximum. destruct (Qlt_bool a b) eqn:H.
  - lra.
  - apply Qlt_bool_false in H. exact H.
Qed.


Lemma Qminimum_r a b : Qminimum a b <= b.
Proof.
  unfold Qminimum. destruct (Qlt_bool b a) eqn:H.
  - lra.
  - apply Qlt_bool_false in H. exact H.
Qed.

Lemma Qminimum_cases a b : Qminimum a b = a \/ Qminimum a b = b.
Proof. unfold Qminimum. destruct (Qlt_bool b a); auto. Qed.

Lemma Qmaximum_cases a b : Qmaximum a b = a \/ Qmaximum a b = b.
Proof. unfold Qmaximum. destruct (Qlt_bool a b); auto. Qed.

Lemma fold_max_ge_init l : forall a, a <= fold_left Qmaximum l a.
Proof.
  induction l as [|b l IH]; intros a; simpl; [lra|].
  eapply Qle_trans; [apply (Qmaximum_l a b) | apply IH].
Qed.

Lemma linf_norm_nonneg v : 0 <= linf_norm v.
Proof.
  unfold linf_norm, list_max, vabs. destruct v as [|a v]; simpl; [lra|].
  eapply Qle_trans; [apply (Qabs_nonneg a) | apply fold_max_ge_init].
Qed.

Lemma exists_pow2 w thr : 0 < thr -> exists k, w <= thr * pow2 k.
Proof.
  intros Hthr. exists (Z.to_nat (Qceiling (w / thr))).
  assert (Hq : w / thr <= pow2 (Z.to_nat (Qceiling (w / thr)))).
  { eapply Qle_trans; [apply Qle_ceiling|]. unfold pow2.
    rewrite <- Zle_Qle.
    pose proof (Z.pow_gt_lin_r 2 (Z.of_nat (Z.to_nat (Qceiling (w / thr))))
                  ltac:(lia) ltac:(lia)).
    lia. }
  assert (Hw : w == w / thr * thr).
  { field. intros H0. rewrite H0 in Hthr. exact (Qlt_irrefl _ Hthr). }
  rewrite Hw at 1. rewrite (Qmult_comm thr).
  apply Qmult_le_compat_r; [exact Hq | lra].
Qed.

Lemma binary_search_returns :
  0 < theta cfg ->
  forall cur orig target n lo hi,
    exists k, forall fuel, (k <= fuel)%nat ->
      exists r, _binary_search E cfg fuel cur orig target n lo hi None = Ret r.
Proof.
  intros Htheta cur orig target n lo hi.
  unfold _binary_search.
  destruct (bs_init cfg cur orig n None) as [[ub lb] thr] eqn:Hinit.
  assert (Hk : exists k, ub - lb <= thr * pow2 k).
  { unfold bs_init in Hinit. destruct n; simpl in Hinit; inversion Hinit; subst.
    - apply exists_pow2. exact Htheta.
    - fold (linf_norm (vsub orig cur)).
      pose proof (linf_norm_nonneg (vsub orig cur)) as Hub.
      set (u := linf_norm (vsub orig cur)) in *.
      destruct (Qlt_le_dec 0 u) as [Hpos|Hzero].
      + apply exists_pow2.
        destruct (Qminimum_cases (u * theta cfg) (theta cfg)) as [-> | ->];
          [|exact Htheta].
        apply Qmult_lt_0_compat; assumption.
      + exists O. change (pow2 0) with 1.
        assert (Hu : u == 0) by lra.
        destruct (Qminimum_cases (u * theta cfg) (theta cfg)) as [-> | ->].
        * rewrite Hu. lra.
        * rewrite Hu. lra. }
  destruct Hk as [k Hk]. exists k. intros fuel Hfuel.
  destruct (bs_loop_terminates cur orig target n lo hi thr k fuel lb ub Hfuel Hk)
    as (l & u & Hrun).
  rewrite Hrun. eauto.
Qed.

(** C2. The binary search with its default threshold is the bisection of the
    specification: from the bounds (0, 1) and threshold [theta] for norm 2, and
    from (0, max |original - current|) and threshold
    [min(upper_bound * theta, theta)] for the infinity norm, where the
    interpolation clips the current sample into the box of radius [alpha]
    around the original.  It returns exactly what that bisection yields at its
    final upper bound, and with a positive [theta] it does return. *)
Theorem binary_search_is_bisection :
  forall cur orig target n lo hi,
    (forall r,
        (exists fuel,
            _binary_search E cfg fuel cur orig target n lo hi None = Ret r)
        <-> bisection (flagged target lo hi) orig cur n
              (snd (spec_start orig cur n (theta cfg))) 0
              (fst (spec_start orig cur n (theta cfg))) r)
    /\ (forall alpha, _interpolate cur orig alpha n = spec_result orig cur n alpha)
    /\ (0 < theta cfg ->
        exists k, forall fuel, (k <= fuel)%nat ->
          exists r, _binary_search E cfg fuel cur orig target n lo hi None = Ret r).
Proof.
  intros cur orig target n lo hi. split; [|split].
  - intros r. unfold _binary_search. rewrite bs_init_spec. split.
    + intros [fuel H].
      destruct (bs_loop E cfg fuel cur orig target n lo hi _ 0 _) as [[l u]| | |] eqn:Hrun;
        try discriminate.
      inversion H; subst. rewrite interpolate_spec.
      eapply bs_loop_sound. exact Hrun.
    + intros H. apply bs_loop_complete in H.
      destruct H as (fuel & l & u & Hrun & Hr).
      exists fuel. rewrite Hrun, interpolate_spec, Hr. reflexivity.
  - intros alpha. apply interpolate_spec.
  - intros Htheta. apply binary_search_returns. exact Htheta.
Qed.

(** *** The direction estimator *)













(** *** Samples stay within the clip bounds *)

Lemma clip_in_range a lo hi : lo <= hi -> lo <= clip a lo hi /\ clip a lo hi <= hi.
Proof.
  intros H. unfold clip. split; [|apply Qminimum_r].
  pose proof (Qmaximum_r a lo).
  destruct (Qminimum_cases (Qmaximum a lo) hi) as [-> | ->]; assumption.
Qed.

Lemma clip_id a lo hi : lo <= a -> a <= hi -> clip a lo hi = a.
Proof.
  intros H1 H2. unfold clip, Qmaximum, Qminimum.
  assert (Ha : Qlt_bool a lo = false) by (apply Qlt_bool_false; exact H1).
  rewrite Ha.
  assert (Hb : Qlt_bool hi a = false) by (apply Qlt_bool_false; exact H2).
  rewrite Hb. reflexivity.
Qed.


Lemma vclip_id s lo hi : in_range lo hi s -> vclip s lo hi = s.
Proof.
  unfold in_range, vclip. induction 1 as [|a s [H1 H2] _ IH]; simpl; [reflexivity|].
  rewrite IH, clip_id by assumption. reflexivity.
Qed.

Lemma convex_in_range alpha o c lo hi :
  0 <= alpha -> alpha <= 1 -> lo <= o /\ o <= hi -> lo <= c /\ c <= hi ->
  lo <= (1 - alpha) * o + alpha * c /\ (1 - alpha) * o + alpha * c <= hi.
Proof.
  intros Ha0 Ha1 [Ho1 Ho2] [Hc1 Hc2].
  pose proof (Qmult_le_0_compat (1 - alpha) (o - lo) ltac:(lra) ltac:(lra)).
  pose proof (Qmult_le_0_compat alpha (c - lo) ltac:(lra) ltac:(lra)).
  pose proof (Qmult_le_0_compat (1 - alpha) (hi - o) ltac:(lra) ltac:(lra)).
  pose proof (Qmult_le_0_compat alpha (hi - c) ltac:(lra) ltac:(lra)).
  split; lra.
Qed.

Lemma box_in_range alpha o c lo hi :
  0 <= alpha -> lo <= o /\ o <= hi -> lo <= c /\ c <= hi ->
  lo <= clip c (o - alpha) (o + alpha) /\ clip c (o - alpha) (o + alpha) <= hi.
Proof.
  intros Ha [Ho1 Ho2] [Hc1 Hc2]. unfold clip, Qmaximum, Qminimum.
  destruct (Qlt_bool c (o - alpha)) eqn:H1;
    [apply Qlt_bool_true in H1 | apply Qlt_bool_false in H1];
    match goal with |- context [Qlt_bool ?a ?b] => destruct (Qlt_bool a b) eqn:H2 end;
    [apply Qlt_bool_true in H2 | apply Qlt_bool_false in H2
    |apply Qlt_bool_true in H2 | apply Qlt_bool_false in H2];
    split; lra.
Qed.

Lemma zip_with_in_range (f : Q -> Q -> Q) lo hi :
  (forall o c, lo <= o /\ o <= hi -> lo <= c /\ c <= hi ->
               lo <= f o c /\ f o c <= hi) ->
  forall orig cur,
    in_range lo hi orig -> in_range lo hi cur -> in_range lo hi (zip_with f orig cur).
Proof.
  intros Hf orig cur Ho. revert cur.
  induction Ho as [|o orig Ho _ IH]; intros cur Hc; [constructor|].
  destruct Hc as [|c cur Hc Hcs]; simpl; [constructor|].
  constructor; [apply Hf; assumption | apply IH; assumption].
Qed.

Lemma spec_result_in_range orig cur n alpha lo hi :
  0 <= alpha -> (n = L2 -> alpha <= 1) ->
  in_range lo hi orig -> in_range lo hi cur ->
  in_range lo hi (spec_result orig cur n alpha).
Proof.
  intros Ha0 Ha1 Ho Hc. unfold spec_result. destruct n.
  - apply zip_with_in_range; try assumption.
    intros. apply convex_in_range; auto.
  - apply zip_with_in_range; try assumption.
    intros. apply box_in_range; auto.
Qed.

Lemma bs_loop_bounds cur orig target n lo hi thr :
  forall fuel lower upper l u,
    lower <= upper ->
    bs_loop E cfg fuel cur orig target n lo hi thr lower upper = Ret (l, u) ->
    lower <= l /\ l <= u /\ u <= upper.
Proof.
  induction fuel as [|fuel IH]; intros lower upper l u Hle H; simpl in H;
    destruct (Qlt_bool thr (upper - lower)); try discriminate;
    try (inversion H; subst; repeat split; lra).
  destruct (first_flag _); simpl in H; apply IH in H; try qlin;
    destruct H as (H1 & H2 & H3); repeat split; try exact H2;
    revert H1 H3; qlin.
Qed.

Lemma binary_search_in_range :
  forall fuel cur orig target n lo hi thr r,
    in_range lo hi cur -> in_range lo hi orig ->
    _binary_search E cfg fuel cur orig target n lo hi thr = Ret r ->
    in_range lo hi r.
Proof.
  intros fuel cur orig target n lo hi thr r Hc Ho H.
  unfold _binary_search in H.
  destruct (bs_init cfg cur orig n thr) as [[ub lb] t] eqn:Hinit.
  destruct (bs_loop E cfg fuel cur orig target n lo hi t lb ub) as [[l u]| | |] eqn:Hrun;
    try discriminate.
  inversion H; subst r. rewrite interpolate_spec.
  assert (Hb : lb = 0 /\ 0 <= ub /\ (n = L2 -> ub = 1)).
  { unfold bs_init in Hinit. destruct n; simpl in Hinit; inversion Hinit; subst.
    - repeat split; lra.
    - repeat split; try discriminate. apply linf_norm_nonneg. }
  destruct Hb as (-> & Hub & Hl2).
  apply bs_loop_bounds in Hrun; [|exact Hub].
  destruct Hrun as (H1 & H2 & H3).
  apply spec_result_in_range; try assumption.
  - lra.
  - intros Hn. rewrite (Hl2 Hn) in H3. exact H3.
Qed.



Lemma raw_draw_in_range lo hi pos n :
  unit_draws -> lo <= hi ->
  in_range lo hi (map (fun j => lo + (hi - lo) * unif E pos j) (seq 0 n)).
Proof.
  intros Hu Hle. unfold in_range. apply Forall_map, Forall_forall.
  intros j _. destruct (Hu pos j) as [H0 H1].
  pose proof (Qmult_le_0_compat (hi - lo) (unif E pos j) ltac:(lra) H0).
  pose proof (Qmult_le_0_compat (hi - lo) (1 - unif E pos j) ltac:(lra) ltac:(lra)).
  split; lra.
Qed.

Lemma apply_mask_in_range lo hi :
  forall d m x,
    Forall (fun a => 0 <= a /\ a <= 1) m ->
    in_range lo hi d -> in_range lo hi x ->
    in_range lo hi (apply_mask d m x).
Proof.
  unfold apply_mask, vadd, vmul.
  induction d as [|a d IH]; intros m x Hm Hd Hx; [constructor|].
  destruct m as [|b m]; [constructor|]. destruct x as [|c x]; [constructor|].
  inversion Hm as [|? ? [Hb0 Hb1] Hm']; subst.
  inversion Hd as [|? ? [Ha0 Ha1] Hd']; subst.
  inversion Hx as [|? ? [Hc0 Hc1] Hx']; subst.
  simpl. constructor; [|apply IH; assumption].
  pose proof (Qmult_le_0_compat (a - lo) b ltac:(lra) Hb0).
  pose proof (Qmult_le_0_compat (c - lo) (1 - b) ltac:(lra) ltac:(lra)).
  pose proof (Qmult_le_0_compat (hi - a) b ltac:(lra) Hb0).
  pose proof (Qmult_le_0_compat (hi - c) (1 - b) ltac:(lra) ltac:(lra)).
  split; lra.
Qed.

Lemma the_draw_in_range x mask lo hi pos :
  unit_draws -> lo <= hi -> mask_ok mask -> in_range lo hi x ->
  in_range lo hi (the_draw x mask lo hi pos).
Proof.
  intros Hu Hle Hm Hx. unfold the_draw, masked.
  pose proof (raw_draw_in_range lo hi pos (length x) Hu Hle) as Hd.
  destruct mask as [m|]; [|exact Hd].
  apply apply_mask_in_range; assumption.
Qed.

Section DrawsInRange.

Variables (x : sample) (mask : option sample) (lo hi : Q).
Hypothesis Hu : unit_draws.
Hypothesis Hle : lo <= hi.
Hypothesis Hm : mask_ok mask.
Hypothesis Hx : in_range lo hi x.



Lemma adv_init_test_raises is_ne a row label :
  (2 <= length row)%nat ->
  adv_init_test is_ne (Some a) (Some row) label = Raise RuntimeError.
Proof.
  intros H. unfold adv_init_test, init_pred_cmp, tensor_truth.
  destruct row as [|v [|w row]]; simpl in H; try lia. reflexivity.
Qed.



End DrawsInRange.

Lemma fold_max_ge l : forall a b, In b (a :: l) -> b <= fold_left Qmaximum l a.
Proof.
  induction l as [|c l IH]; intros a b Hin; simpl.
  - destruct Hin as [->|[]]. lra.
  - destruct Hin as [->|[->|Hin]].
    + eapply Qle_trans; [apply (Qmaximum_l b c) | apply fold_max_ge_init].
    + eapply Qle_trans; [apply (Qmaximum_r a b) | apply fold_max_ge_init].
    + apply IH. right. exact Hin.
Qed.









(** *** The returned sample is adversarial *)

Lemma Qeq_bool_inject a b : Qeq_bool (inject_Z a) (inject_Z b) = (a =? b)%Z.
Proof.
  destruct (Z.eqb_spec a b) as [->|Hne].
  - apply Qeq_bool_iff. reflexivity.
  - apply not_true_is_false. intros H. apply Qeq_bool_iff in H.
    apply Hne. unfold Qeq in H. simpl in H. lia.
Qed.

Lemma flagged_label_test lbl lo hi s :
  flagged (inject_Z lbl) lo hi s
  = label_test lbl (predict E (apply_softmax cfg) (vclip s lo hi)).
Proof.
  unfold flagged, _adversarial_satisfactory, label_test.
  destruct (targeted cfg); simpl; rewrite Qeq_bool_inject; reflexivity.
Qed.

Lemma predict_softmax b s :
  softmax_keeps_argmax -> predict E b s = predict E false s.
Proof.
  intros H. unfold predict. destruct b; [apply H | reflexivity].
Qed.

Lemma predict_ext b s s' :
  map Qred s = map Qred s' -> predict E b s = predict E b s'.
Proof. intros H. unfold predict, scores. rewrite H. reflexivity. Qed.

Lemma spec_result_one orig cur :
  (length cur <= length orig)%nat ->
  map Qred (spec_result orig cur L2 1) = map Qred cur.
Proof.
  unfold spec_result. revert cur.
  induction orig as [|o orig IH]; intros [|c cur] Hlen;
    cbn [zip_with map length] in *; try reflexivity; try lia.
  rewrite IH by lia. f_equal. apply Qred_complete. ring.
Qed.

Lemma bs_loop_upper cur orig target n lo hi thr :
  forall fuel lower upper l u,
    bs_loop E cfg fuel cur orig target n lo hi thr lower upper = Ret (l, u) ->
    u = upper \/ flagged target lo hi (spec_result orig cur n u) = true.
Proof.
  induction fuel as [|fuel IH]; intros lower upper l u H; simpl in H;
    destruct (Qlt_bool thr (upper - lower)); try discriminate;
    try (inversion H; subst; left; reflexivity).
  rewrite interpolate_spec in H.
  fold (flagged target lo hi (spec_result orig cur n ((upper + lower) / 2))) in H.
  destruct (flagged target lo hi (spec_result orig cur n ((upper + lower) / 2))) eqn:Hf;
    simpl in H; apply IH in H.
  - destruct H as [-> | H]; right; assumption.
  - exact H.
Qed.

Lemma zip_with_length {A B C} (f : A -> B -> C) l m :
  length (zip_with f l m) = Nat.min (length l) (length m).
Proof.
  revert m. induction l as [|a l IH]; intros [|b m]; simpl; auto.
Qed.

Lemma the_draw_length x mask lo hi pos :
  (length (the_draw x mask lo hi pos) <= length x)%nat.
Proof.
  unfold the_draw, masked. destruct mask as [m|].
  - unfold apply_mask, vadd, vmul. rewrite !zip_with_length. lia.
  - rewrite length_map, length_seq. lia.
Qed.

Section Achieves.

Variables (x : sample) (mask : option sample) (lo hi : Q).
Hypothesis Hsoft : softmax_keeps_argmax.
Hypothesis Hu : unit_draws.
Hypothesis Hm : mask_ok mask.
Hypothesis Hx : in_range lo hi x.

Lemma range_nonempty : x <> [] -> lo <= hi.
Proof.
  intros Hne. destruct Hx as [|a l [H1 H2] _]; [contradiction | lra].
Qed.

Lemma the_draw_ok pos :
  in_range lo hi (the_draw x mask lo hi pos).
Proof.
  destruct (Nat.eq_dec (length x) 0) as [H0|Hn].
  - pose proof (the_draw_length x mask lo hi pos) as Hl.
    destruct (the_draw x mask lo hi pos); [constructor | simpl in Hl; lia].
  - apply the_draw_in_range; try assumption.
    apply range_nonempty. intros Hnil. rewrite Hnil in Hn. apply Hn. reflexivity.
Qed.

Lemma projection_meets fuel lbl pos thr r :
  label_test lbl (predict E false (the_draw x mask lo hi pos)) = true ->
  _binary_search E cfg fuel (the_draw x mask lo hi pos) x (inject_Z lbl) L2 lo hi
    (Some thr) = Ret r ->
  label_test lbl (predict E (apply_softmax cfg) r) = true.
Proof.
  intros Hhit H.
  pose proof (binary_search_in_range _ _ _ _ _ _ _ _ _ (the_draw_ok pos) Hx H) as Hr.
  unfold _binary_search in H. simpl in H.
  destruct (bs_loop E cfg fuel (the_draw x mask lo hi pos) x (inject_Z lbl) L2 lo hi
              thr 0 1) as [[l u]| | |] eqn:Hrun; try discriminate.
  inversion H; subst r. clear H. rewrite interpolate_spec in *.
  apply bs_loop_upper in Hrun. destruct Hrun as [-> | Hf].
  - rewrite (predict_ext _ _ (the_draw x mask lo hi pos)).
    + rewrite predict_softmax by exact Hsoft. exact Hhit.
    + apply spec_result_one, the_draw_length.
  - rewrite flagged_label_test, (vclip_id _ _ _ Hr) in Hf. exact Hf.
Qed.

Lemma untargeted_draws_meets fuel y_p :
  targeted cfg = false ->
  forall n st found st',
    untargeted_draws E cfg n fuel x y_p mask lo hi st = Ret (found, st') ->
    meets y_p found.
Proof.
  intros Ht. induction n as [|n IH]; intros st found st' H.
  - simpl in H. unfold ret in H. inversion H; subst. exact I.
  - rewrite untargeted_draws_step in H.
    destruct (negb _) eqn:Hhit.
    + run_bind H as r st1 Hbs. apply lift_ret_inv in Hbs. destruct Hbs as [Hbs _].
      unfold ret in H. inversion H; subst. simpl. split; [reflexivity|].
      eapply projection_meets; [|exact Hbs].
      unfold label_test. rewrite Ht. exact Hhit.
    + eapply IH. exact H.
Qed.

Lemma targeted_draws_meets fuel y :
  targeted cfg = true ->
  forall n acc st found st',
    meets y acc ->
    targeted_draws E cfg n fuel x y mask lo hi acc st = Ret (found, st') ->
    meets y found.
Proof.
  intros Ht. induction n as [|n IH]; intros acc st found st' Hacc H.
  - simpl in H. unfold ret in H. inversion H; subst. exact Hacc.
  - rewrite targeted_draws_step in H.
    destruct (_ =? _)%Z eqn:Hhit.
    + run_bind H as r st1 Hbs. apply lift_ret_inv in Hbs. destruct Hbs as [Hbs _].
      eapply IH; [|exact H]. simpl. apply Z.eqb_eq in Hhit. rewrite Hhit.
      split; [reflexivity|].
      eapply projection_meets; [|exact Hbs].
      unfold label_test. rewrite Ht, Hhit. apply Z.eqb_refl.
    + eapply IH; eassumption.
Qed.

Lemma init_sample_meets fuel y y_p init_pred adv_init st found st' :
  init_pred_sound adv_init init_pred ->
  _init_sample E cfg fuel x y y_p init_pred adv_init mask lo hi st = Ret (found, st') ->
  meets (if targeted cfg then y else y_p) found.
Proof.
  intros Hinit H. unfold _init_sample in H.
  destruct (targeted cfg) eqn:Ht.
  - destruct (y =? y_p)%Z.
    + unfold ret in H. inversion H; subst. exact I.
    + run_bind H as hit st1 Htest. apply lift_ret_inv in Htest.
      destruct Htest as [Htest ->].
      destruct adv_init as [a|].
      * destruct (Hinit a eq_refl) as [-> | (row & -> & Hrow)].
        -- simpl in Htest. inversion Htest; subst hit. clear Htest.
           rewrite Qeq_bool_inject in H.
           destruct (_ =? y)%Z eqn:Hy.
           ++ unfold ret in H. inversion H; subst. simpl.
              apply Z.eqb_eq in Hy. rewrite Hy. split; [reflexivity|].
              unfold label_test. rewrite Ht. apply Z.eqb_refl.
           ++ eapply (targeted_draws_meets fuel y Ht); [|exact H]. exact I.
        -- rewrite adv_init_test_raises in Htest by exact Hrow. discriminate.
      * simpl in Htest. inversion Htest; subst hit.
        eapply (targeted_draws_meets fuel y Ht); [|exact H]. exact I.
  - run_bind H as hit st1 Htest. apply lift_ret_inv in Htest.
    destruct Htest as [Htest ->].
    destruct adv_init as [a|].
    + destruct (Hinit a eq_refl) as [-> | (row & -> & Hrow)].
      * simpl in Htest. inversion Htest; subst hit. clear Htest.
        rewrite Qeq_bool_inject in H.
        destruct (predict E (apply_softmax cfg) a =? y_p)%Z eqn:Hy; simpl in H.
        -- eapply (untargeted_draws_meets fuel y_p Ht). exact H.
        -- unfold ret in H. inversion H; subst. simpl. split; [reflexivity|].
           unfold label_test. rewrite Ht, Hy. reflexivity.
      * rewrite adv_init_test_raises in Htest by exact Hrow. discriminate.
    + simpl in Htest. inversion Htest; subst hit.
      eapply (untargeted_draws_meets fuel y_p Ht). exact H.
Qed.

End Achieves.

Lemma attack_loop_meets lbl :
  forall iters fuel cur orig mask lo hi st out st',
    (1 <= iters)%nat ->
    attack_loop E cfg iters fuel cur orig (inject_Z lbl) mask lo hi st = Ret (out, st') ->
    label_test lbl (predict E (apply_softmax cfg) out) = true.
Proof.
  induction iters as [|iters IH]; intros fuel cur orig mask lo hi st out st' Hi H;
    [lia|].
  simpl in H. run_bind H as cur' st1 Hit.
  destruct iters as [|iters].
  - simpl in H. unfold ret in H. inversion H; subst.
    apply attack_iteration_ret_inv in Hit.
    destruct Hit as (cur_bs & upd & st2 & k & _ & _ & Ht & _ & -> & _).
    unfold tested in Ht.
    fold (flagged (inject_Z lbl) lo hi
            (candidate cur_bs upd
               (initial_epsilon E (curr_iter st) (distance E cfg orig cur_bs)) k)) in Ht.
    rewrite flagged_label_test in Ht. exact Ht.
  - eapply IH; [lia | exact H].
Qed.

(** C1. When the finder succeeds on a sample and the attack then returns,
    the returned sample is adversarial for the oracle: its predicted class is
    the target label for a targeted attack, and differs from the predicted
    class of the original otherwise.  This holds for every [max_iter]; with
    [max_iter = 0] the attack returns at once, with the sample the finder
    gave.  The oracle's softmax keeps the arg-max, the uniform draws are unit
    draws, the mask has values in [0, 1], the original lies within the clip
    bounds, and what comes with a caller-supplied initial example is its
    label or the estimator's row of at least two scores. *)
Theorem attack_output_is_adversarial :
  forall fuel x y init_pred adv_init mask lo hi st s t st1,
    softmax_keeps_argmax -> unit_draws -> mask_ok mask -> in_range lo hi x ->
    init_pred_sound adv_init init_pred ->
    _init_sample E cfg fuel x y (predict E (apply_softmax cfg) x) init_pred adv_init
      mask lo hi st = Ret (Some (s, t), st1) ->
    (forall out st2,
        _attack E cfg fuel s x t mask lo hi st1 = Ret (out, st2) ->
        if targeted cfg
        then predict E (apply_softmax cfg) out = y
        else predict E (apply_softmax cfg) out <> predict E (apply_softmax cfg) x)
    /\ (max_iter cfg = O ->
        _attack E cfg fuel s x t mask lo hi st1 = Ret (s, st1)).
Proof.
  intros fuel x y init_pred adv_init mask lo hi st s t st1
    Hsoft Hu Hm Hx Hinit Hfound.
  pose proof (init_sample_meets x mask lo hi Hsoft Hu Hm Hx _ _ _ _ _ _ _ _
                Hinit Hfound) as [Ht Hs].
  assert (Hgoal : forall out lbl,
             label_test lbl (predict E (apply_softmax cfg) out) = true ->
             lbl = (if targeted cfg then y else predict E (apply_softmax cfg) x) ->
             if targeted cfg
             then predict E (apply_softmax cfg) out = y
             else predict E (apply_softmax cfg) out
                  <> predict E (apply_softmax cfg) x).
  { intros out lbl Hl ->. unfold label_test in Hl. destruct (targeted cfg).
    - apply Z.eqb_eq. exact Hl.
    - apply Z.eqb_neq. apply negb_true_iff. exact Hl. }
  split.
  - intros out st2 H. unfold _attack in H.
    destruct (max_iter cfg) as [|iters] eqn:Hiter.
    + simpl in H. unfold ret in H. inversion H; subst out st2.
      eapply Hgoal; [exact Hs | reflexivity].
    + rewrite Ht in H. eapply Hgoal; [|reflexivity].
      eapply attack_loop_meets; [|exact H]. lia.
  - intros H0. unfold _attack. rewrite H0. reflexivity.
Qed.

(** *** More on the binary search *)






Lemma interpolate_one_l2 orig cur :
  (length cur <= length orig)%nat ->
  Forall2 Qeq (spec_result orig cur L2 1) cur.
Proof.
  unfold spec_result. revert cur.
  induction orig as [|o orig IH]; intros [|c cur] Hlen;
    cbn [zip_with length] in *; try constructor; try lia.
  - ring.
  - apply IH. lia.
Qed.

Lemma abs_le_linf orig cur :
  Forall (fun d => Qabs d <= linf_norm (vsub orig cur)) (vsub orig cur).
Proof.
  unfold linf_norm, list_max, vabs.
  destruct (vsub orig cur) as [|d ds]; [constructor|].
  apply Forall_forall. intros e He. simpl map.
  apply fold_max_ge. change (Qabs d :: map Qabs ds) with (map Qabs (d :: ds)).
  apply in_map. exact He.
Qed.

Lemma box_id alpha :
  forall orig cur,
    length cur = length orig ->
    Forall (fun d => Qabs d <= alpha) (zip_with Qminus orig cur) ->
    zip_with (fun o c => clip c (o - alpha) (o + alpha)) orig cur = cur.
Proof.
  induction orig as [|o orig IH]; intros [|c cur] Hlen Hall;
    cbn [zip_with length] in *; try reflexivity; try discriminate.
  inversion Hall as [|? ? Hd Hrest]; subst.
  rewrite IH; [| congruence | exact Hrest].
  apply Qabs_Qle_condition in Hd.
  rewrite clip_id; [reflexivity | lra | lra].
Qed.

Lemma interpolate_far_linf orig cur alpha :
  length cur = length orig ->
  linf_norm (vsub orig cur) <= alpha ->
  spec_result orig cur Linf alpha = cur.
Proof.
  intros Hlen Halpha. unfold spec_result. apply box_id; [exact Hlen|].
  eapply Forall_impl; [|apply abs_le_linf].
  intros d Hd. simpl in Hd. lra.
Qed.


Lemma fold_max_le l : forall a b,
  a <= b -> Forall (fun d => d <= b) l -> fold_left Qmaximum l a <= b.
Proof.
  induction l as [|c l IH]; intros a b Ha Hl; simpl; [exact Ha|].
  inversion Hl as [|? ? Hc Hrest]; subst. apply IH; [|exact Hrest].
  destruct (Qmaximum_cases a c) as [-> | ->]; assumption.
Qed.

Lemma linf_norm_le v b :
  0 <= b -> Forall (fun d => Qabs d <= b) v -> linf_norm v <= b.
Proof.
  intros Hb Hv. unfold linf_norm, list_max, vabs.
  destruct v as [|d v]; simpl; [exact Hb|].
  inversion Hv as [|? ? Hd Hrest]; subst.
  apply fold_max_le; [exact Hd|]. apply Forall_map. exact Hrest.
Qed.

Lemma box_distance orig cur alpha :
  0 <= alpha ->
  Forall (fun d => Qabs d <= alpha) (vsub orig (spec_result orig cur Linf alpha)).
Proof.
  intros Ha. unfold spec_result, vsub. revert cur.
  induction orig as [|o orig IH]; intros [|c cur]; cbn [zip_with]; try constructor.
  - destruct (clip_in_range c (o - alpha) (o + alpha) ltac:(lra)) as [H1 H2].
    apply Qabs_Qle_condition. split; lra.
  - apply IH.
Qed.

Lemma Qsq_nonneg a : 0 <= a * a.
Proof.
  destruct (Qlt_le_dec a 0) as [Hneg|Hpos].
  - pose proof (Qmult_le_0_compat (- a) (- a) ltac:(lra) ltac:(lra)) as H.
    assert (Heq : - a * - a == a * a) by ring. rewrite Heq in H. exact H.
  - apply Qmult_le_0_compat; exact Hpos.
Qed.

Lemma sum_squares_nonneg v : 0 <= sum_squares v.
Proof.
  unfold sum_squares. induction v as [|a v IH]; simpl; [lra|].
  fold (Qsum (map (fun a => a * a) v)).
  pose proof (Qsq_nonneg a) as Ha. lra.
Qed.

Lemma segment_distance orig cur alpha :
  sum_squares (vsub orig (spec_result orig cur L2 alpha))
  == alpha * alpha * sum_squares (vsub orig cur).
Proof.
  unfold spec_result, vsub, sum_squares. revert cur.
  induction orig as [|o orig IH]; intros [|c cur]; cbn [zip_with map Qsum fold_right];
    try ring.
  fold (Qsum (map (fun a => a * a)
                (zip_with Qminus orig
                   (zip_with (fun o c => (1 - alpha) * o + alpha * c) orig cur)))).
  fold (Qsum (map (fun a => a * a) (zip_with Qminus orig cur))).
  rewrite IH. ring.
Qed.

(** X2. The binary search never moves the sample away from the original: the
    L-infinity distance to the original does not grow under the infinity
    norm, and the squared L2 distance does not grow under norm 2. *)
Theorem binary_search_pulls_inward :
  forall fuel cur orig target n lo hi thr r,
    _binary_search E cfg fuel cur orig target n lo hi thr = Ret r ->
    match n with
    | L2 => sum_squares (vsub orig r) <= sum_squares (vsub orig cur)
    | Linf => linf_norm (vsub orig r) <= linf_norm (vsub orig cur)
    end.
Proof.
  intros fuel cur orig target n lo hi thr r H.
  unfold _binary_search in H.
  destruct (bs_init cfg cur orig n thr) as [[ub lb] t] eqn:Hinit.
  destruct (bs_loop E cfg fuel cur orig target n lo hi t lb ub) as [[l u]| | |] eqn:Hrun;
    try discriminate.
  inversion H; subst r. clear H. rewrite interpolate_spec.
  unfold bs_init in Hinit. destruct n; simpl in Hinit; inversion Hinit; subst.
  - apply bs_loop_bounds in Hrun; [|lra]. destruct Hrun as (H1 & H2 & H3).
    rewrite segment_distance.
    pose proof (sum_squares_nonneg (vsub orig cur)) as Hs.
    pose proof (Qmult_le_0_compat (1 - u) (1 + u) ltac:(lra) ltac:(lra)) as Hu.
    pose proof (Qmult_le_0_compat ((1 - u) * (1 + u)) _ Hu Hs) as Hp.
    set (S := sum_squares (vsub orig cur)) in *.
    assert (Heq : (1 - u) * (1 + u) * S == S - u * u * S) by ring.
    rewrite Heq in Hp. lra.
  - fold (linf_norm (vsub orig cur)) in *.
    pose proof (linf_norm_nonneg (vsub orig cur)) as Hub.
    apply bs_loop_bounds in Hrun; [|exact Hub]. destruct Hrun as (H1 & H2 & H3).
    apply linf_norm_le; [exact Hub|].
    eapply Forall_impl; [|apply (box_distance orig cur u); lra].
    intros d Hd. simpl in Hd. lra.
Qed.

Lemma bs_loop_exit cur orig target n lo hi thr :
  forall fuel lower upper l u,
    bs_loop E cfg fuel cur orig target n lo hi thr lower upper = Ret (l, u) ->
    u - l <= thr.
Proof.
  induction fuel as [|fuel IH]; intros lower upper l u H; simpl in H;
    destruct (Qlt_bool thr (upper - lower)) eqn:Hc; try discriminate;
    try (inversion H; subst; apply Qlt_bool_false; exact Hc).
  eapply IH. exact H.
Qed.

Lemma bs_loop_lower cur orig target n lo hi thr :
  forall fuel lower upper l u,
    bs_loop E cfg fuel cur orig target n lo hi thr lower upper = Ret (l, u) ->
    l = lower \/ flagged target lo hi (spec_result orig cur n l) = false.
Proof.
  induction fuel as [|fuel IH]; intros lower upper l u H; simpl in H;
    destruct (Qlt_bool thr (upper - lower)); try discriminate;
    try (inversion H; subst; left; reflexivity).
  rewrite interpolate_spec in H.
  fold (flagged target lo hi (spec_result orig cur n ((upper + lower) / 2))) in H.
  destruct (flagged target lo hi (spec_result orig cur n ((upper + lower) / 2))) eqn:Hf;
    simpl in H; apply IH in H.
  - exact H.
  - destruct H as [-> | H]; right; assumption.
Qed.

(** X3. What the binary search returns is the interpolation at an upper bound
    that lies within the threshold of a lower bound, the two between 0 and the
    starting upper bound: the lower one is 0 or was tested not adversarial,
    the upper one is the starting bound or was tested adversarial. *)
Theorem binary_search_bracket :
  forall fuel cur orig target n lo hi thr r ub0 lb0 t,
    bs_init cfg cur orig n thr = (ub0, lb0, t) ->
    _binary_search E cfg fuel cur orig target n lo hi thr = Ret r ->
    exists l u,
      r = _interpolate cur orig u n
      /\ 0 <= l /\ l <= u /\ u <= ub0 /\ u - l <= t
      /\ (l = 0 \/ flagged target lo hi (_interpolate cur orig l n) = false)
      /\ (u = ub0 \/ flagged target lo hi (_interpolate cur orig u n) = true).
Proof.
  intros fuel cur orig target n lo hi thr r ub0 lb0 t Hinit H.
  unfold _binary_search in H. rewrite Hinit in H.
  destruct (bs_loop E cfg fuel cur orig target n lo hi t lb0 ub0) as [[l u]| | |] eqn:Hrun;
    try discriminate.
  inversion H; subst r. clear H.
  assert (Hb : lb0 = 0 /\ 0 <= ub0).
  { unfold bs_init in Hinit. destruct n; simpl in Hinit; inversion Hinit; subst.
    - split; [reflexivity | lra].
    - split; [reflexivity | apply linf_norm_nonneg]. }
  destruct Hb as [-> Hub].
  exists l, u. rewrite !interpolate_spec.
  pose proof (bs_loop_bounds _ _ _ _ _ _ _ _ _ _ _ _ Hub Hrun) as (H1 & H2 & H3).
  repeat split; try assumption.
  - eapply bs_loop_exit. exact Hrun.
  - eapply bs_loop_lower. exact Hrun.
  - eapply bs_loop_upper. exact Hrun.
Qed.

Lemma bs_loop_out_of_fuel cur orig target n lo hi thr :
  0 <= thr ->
  forall fuel lower upper,
    thr * pow2 fuel < upper - lower ->
    bs_loop E cfg fuel cur orig target n lo hi thr lower upper = OutOfFuel.
Proof.
  intros Hthr. induction fuel as [|fuel IH]; intros lower upper Hw.
  - simpl. change (pow2 0) with 1 in Hw.
    assert (Hc : Qlt_bool thr (upper - lower) = true) by (apply Qlt_bool_true; lra).
    rewrite Hc. reflexivity.
  - pose proof (pow2_pos fuel) as Hp. rewrite pow2_succ in Hw.
    pose proof (Qmult_le_0_compat thr (pow2 fuel) Hthr ltac:(lra)) as Hprod.
    assert (Hw' : 2 * (thr * pow2 fuel) < upper - lower).
    { eapply Qle_lt_trans; [|exact Hw]. apply Qle_lteq. right. ring. }
    clear Hw. set (w := thr * pow2 fuel) in *.
    simpl.
    assert (Hc : Qlt_bool thr (upper - lower) = true).
    { apply Qlt_bool_true.
      assert (thr <= w).
      { unfold w.
        pose proof (Qmult_le_0_compat thr (pow2 fuel - 1) Hthr) as Hq.
        assert (H1 : 1 <= pow2 fuel).
        { unfold pow2. change 1 with (inject_Z 1). rewrite <- Zle_Qle.
          pose proof (Z.pow_pos_nonneg 2 (Z.of_nat fuel) ltac:(lia) ltac:(lia)). lia. }
        specialize (Hq ltac:(lra)).
        assert (Heq : thr * (pow2 fuel - 1) == thr * pow2 fuel - thr) by ring.
        rewrite Heq in Hq. lra. }
      lra. }
    rewrite Hc. apply IH.
    destruct (first_flag _); simpl; qlin.
Qed.

(** X4. The number of passes of the binary search is fixed by the starting
    bounds and the threshold, not by what the oracle answers: with a
    threshold that is not negative the search cannot return in [k] passes
    while the starting width exceeds [2^k] thresholds, and it returns within
    [k] once the width is at most that.  The projection of the finder, from
    (0, 1) with threshold 0.001, takes exactly ten. *)
Theorem binary_search_passes :
  forall cur orig target n lo hi thr ub0 lb0 t k fuel,
    bs_init cfg cur orig n thr = (ub0, lb0, t) ->
    0 <= t ->
    (t * pow2 k < ub0 - lb0 -> (fuel <= k)%nat ->
     _binary_search E cfg fuel cur orig target n lo hi thr = OutOfFuel)
    /\ (ub0 - lb0 <= t * pow2 k -> (k <= fuel)%nat ->
        exists r, _binary_search E cfg fuel cur orig target n lo hi thr = Ret r).
Proof.
  intros cur orig target n lo hi thr ub0 lb0 t k fuel Hinit Ht. split.
  - intros Hw Hfuel. unfold _binary_search. rewrite Hinit.
    rewrite bs_loop_out_of_fuel; [reflexivity | exact Ht |].
    eapply Qle_lt_trans; [|exact Hw].
    rewrite (Qmult_comm t (pow2 fuel)), (Qmult_comm t (pow2 k)).
    apply Qmult_le_compat_r; [|exact Ht].
    unfold pow2. rewrite <- Zle_Qle. apply Z.pow_le_mono_r; lia.
  - intros Hw Hfuel. unfold _binary_search. rewrite Hinit.
    destruct (bs_loop_terminates cur orig target n lo hi t k fuel lb0 ub0 Hfuel Hw)
      as (l & u & Hrun).
    rewrite Hrun. eauto.
Qed.

(** X5. The interpolation spans from the original to the current sample: for
    samples of one shape it gives the original at 0, for either norm, the
    current sample at 1 under norm 2, and the current sample itself from the
    L-infinity distance on under the infinity norm. *)
Theorem interpolate_endpoints :
  forall cur orig,
    length cur = length orig ->
    (forall n, Forall2 Qeq (_interpolate cur orig 0 n) orig)
    /\ Forall2 Qeq (_interpolate cur orig 1 L2) cur
    /\ (forall alpha, linf_norm (vsub orig cur) <= alpha ->
                      _interpolate cur orig alpha Linf = cur).
Proof.
  intros cur orig Hlen. split; [|split].
  - intros n. rewrite interpolate_spec. unfold spec_result. revert cur Hlen.
    induction orig as [|o orig IH]; intros [|c cur] Hlen; try discriminate;
      destruct n; cbn [zip_with]; constructor;
      try (apply (IH cur); simpl in Hlen; congruence).
    + ring.
    + destruct (clip_in_range c (o - 0) (o + 0) ltac:(lra)) as [H1 H2]. lra.
  - rewrite interpolate_spec. apply interpolate_one_l2. lia.
  - intros alpha Ha. rewrite interpolate_spec.
    apply interpolate_far_linf; assumption.
Qed.

(** *** More on the main loop *)

Lemma clip_idem a lo hi : clip (clip a lo hi) lo hi = clip a lo hi.
Proof.
  destruct (Qlt_le_dec hi lo) as [Hbad|Hle].
  - assert (H : forall b, clip b lo hi = hi).
    { intros b. unfold clip, Qminimum.
      assert (Hc : Qlt_bool hi (Qmaximum b lo) = true).
      { apply Qlt_bool_true. pose proof (Qmaximum_r b lo). lra. }
      rewrite Hc. reflexivity. }
    rewrite !H. reflexivity.
  - destruct (clip_in_range a lo hi Hle) as [H1 H2]. apply clip_id; assumption.
Qed.

Lemma vclip_idem s lo hi : vclip (vclip s lo hi) lo hi = vclip s lo hi.
Proof.
  unfold vclip. rewrite map_map. apply map_ext. intros a. apply clip_idem.
Qed.

Lemma flagged_vclip target lo hi s :
  flagged target lo hi (vclip s lo hi) = flagged target lo hi s.
Proof.
  unfold flagged, _adversarial_satisfactory. simpl. rewrite vclip_idem. reflexivity.
Qed.

Lemma attack_iteration_flagged :
  forall fuel cur orig target mask lo hi st cur' st',
    attack_iteration E cfg fuel cur orig target mask lo hi st = Ret (cur', st') ->
    flagged target lo hi cur' = true.
Proof.
  intros fuel cur orig target mask lo hi st cur' st' H.
  apply attack_iteration_ret_inv in H.
  destruct H as (cur_bs & upd & st1 & k & _ & _ & Ht & _ & -> & _).
  rewrite flagged_vclip. exact Ht.
Qed.

(** X6. After at least one pass of the main loop, what the attack returns
    passes the adversarial test it was run with, whatever the target value
    and the oracle: the sample kept at the end of a pass is the clipped form
    of the one that was tested. *)
Theorem attack_result_passes_test :
  forall fuel initial orig target mask lo hi st out st',
    (1 <= max_iter cfg)%nat ->
    _attack E cfg fuel initial orig target mask lo hi st = Ret (out, st') ->
    first_flag (_adversarial_satisfactory E cfg [out] target lo hi) = true.
Proof.
  intros fuel initial orig target mask lo hi st out st' Hiter H.
  unfold _attack in H. revert initial st H.
  induction (max_iter cfg) as [|iters IH]; intros initial st H; [lia|].
  simpl in H. run_bind H as cur' st1 Hit.
  destruct iters as [|iters].
  - simpl in H. unfold ret in H. inversion H; subst.
    exact (attack_iteration_flagged _ _ _ _ _ _ _ _ _ _ Hit).
  - eapply IH; [lia | exact H].
Qed.

Lemma compute_update_state :
  forall cur num_eval delta target mask lo hi st upd st',
    _compute_update E cfg cur num_eval delta target mask lo hi st = Ret (upd, st') ->
    st' = {| curr_iter := curr_iter st; unif_pos := unif_pos st;
             noise_pos := (noise_pos st + num_eval)%nat |}.
Proof.
  intros cur num_eval delta target mask lo hi st upd st' H.
  destruct (compute_update_cases cur num_eval delta target mask lo hi st)
    as [[upd' Hret] | Hnf]; rewrite ?Hret, ?Hnf in H; [|discriminate].
  inversion H. reflexivity.
Qed.

Lemma get_num_eval_le iter : (get_num_eval E cfg iter <= max_eval cfg)%nat.
Proof. unfold get_num_eval. lia. Qed.

Lemma attack_iteration_state :
  forall fuel cur orig target mask lo hi st cur' st',
    attack_iteration E cfg fuel cur orig target mask lo hi st = Ret (cur', st') ->
    curr_iter st' = (curr_iter st + 1)%nat
    /\ unif_pos st' = unif_pos st
    /\ noise_pos st' = (noise_pos st + get_num_eval E cfg (curr_iter st))%nat.
Proof.
  intros fuel cur orig target mask lo hi st cur' st' H.
  apply attack_iteration_ret_inv in H.
  destruct H as (cur_bs & upd & st1 & k & _ & Hupd & _ & _ & _ & ->).
  apply compute_update_state in Hupd. subst st1. simpl. auto.
Qed.

(** X7. The attack advances [curr_iter] by [max_iter], reads no uniform draw,
    and reads the noise of at most [max_eval] probes per pass. *)
Theorem attack_counters :
  forall fuel initial orig target mask lo hi st out st',
    _attack E cfg fuel initial orig target mask lo hi st = Ret (out, st') ->
    curr_iter st' = (curr_iter st + max_iter cfg)%nat
    /\ unif_pos st' = unif_pos st
    /\ (noise_pos st <= noise_pos st')%nat
    /\ (noise_pos st' <= noise_pos st + max_iter cfg * max_eval cfg)%nat.
Proof.
  intros fuel initial orig target mask lo hi st out st' H.
  unfold _attack in H. revert initial st H.
  induction (max_iter cfg) as [|iters IH]; intros initial st H; simpl in H.
  - unfold ret in H. inversion H; subst. repeat split; lia.
  - run_bind H as cur' st1 Hit.
    apply attack_iteration_state in Hit. destruct Hit as (H1 & H2 & H3).
    apply IH in H. destruct H as (H4 & H5 & H6 & H7).
    pose proof (get_num_eval_le (curr_iter st)).
    repeat split; lia.
Qed.

(** X8. The number of probes of a direction estimate never exceeds
    [max_eval], and for a validated configuration ([init_eval] and [max_eval]
    at least 1) it is at least 1 wherever the square root of the pass number
    is at least 1: the estimator is never asked for the mean of no probe. *)
Theorem num_eval_bounds :
  forall iter,
    (get_num_eval E cfg iter <= max_eval cfg)%nat
    /\ ((1 <= init_eval cfg)%nat -> (1 <= max_eval cfg)%nat ->
        1 <= Qsqrt E (Qnat (iter + 1)) ->
        (1 <= get_num_eval E cfg iter)%nat).
Proof.
  intros iter. split; [apply get_num_eval_le|].
  intros Hi Hm Hs. unfold get_num_eval.
  assert (Hq : 1 <= Qnat (init_eval cfg) * Qsqrt E (Qnat (iter + 1))).
  { assert (Hn : 1 <= Qnat (init_eval cfg)).
    { unfold Qnat. change 1 with (inject_Z 1). rewrite <- Zle_Qle. lia. }
    pose proof (Qmult_le_0_compat (Qnat (init_eval cfg) - 1)
                  (Qsqrt E (Qnat (iter + 1))) ltac:(lra) ltac:(lra)) as Hp.
    assert (Heq : (Qnat (init_eval cfg) - 1) * Qsqrt E (Qnat (iter + 1))
                  == Qnat (init_eval cfg) * Qsqrt E (Qnat (iter + 1))
                     - Qsqrt E (Qnat (iter + 1))) by ring.
    rewrite Heq in Hp. lra. }
  set (q := Qnat (init_eval cfg) * Qsqrt E (Qnat (iter + 1))) in *.
  assert (Ht : (1 <= Qtrunc q)%Z).
  { unfold Qtrunc. clearbody q. destruct q as [qn qd].
    unfold Qle in Hq. cbn [Qnum Qden] in *.
    apply Z.quot_le_lower_bound; lia. }
  lia.
Qed.

(** *** The probe size and the step of the infinity norm *)

Lemma Qred_inject z : Qred (inject_Z z) = inject_Z z.
Proof.
  unfold Qred, inject_Z.
  pose proof (Z.ggcd_gcd z 1) as Hg. pose proof (Z.ggcd_correct_divisors z 1) as Hd.
  destruct (Z.ggcd z 1) as [g [n d]]. simpl in *.
  rewrite Z.gcd_1_r in Hg. subst g. destruct Hd as [Hn Hd].
  rewrite Z.mul_1_l in Hn, Hd. subst z d. reflexivity.
Qed.

(** X9. The size of the random probes: a tenth of the clip range in the first
    pass, and afterwards, with [theta] as the constructor derives it from the
    norm and the input shape, a hundredth of the current distance to the
    original, for either norm. *)
Theorem compute_delta_value :
  forall iter cur orig lo hi,
    (iter = O -> _compute_delta E cfg iter cur orig lo hi = (1 # 10) * (hi - lo))
    /\ (iter <> O ->
        theta cfg = init_theta E (norm cfg) (input_shape cfg) ->
        match norm cfg with
        | L2 => ~ sqrt E (Qnat (numel cfg)) == 0
        | Linf => numel cfg <> O
        end ->
        _compute_delta E cfg iter cur orig lo hi
        == (1 # 100) * distance E cfg orig cur).
Proof.
  intros iter cur orig lo hi. split.
  - intros ->. reflexivity.
  - intros Hiter Htheta Hnz. unfold _compute_delta, distance.
    apply Nat.eqb_neq in Hiter. rewrite Hiter, Htheta.
    unfold init_theta, Qsqrt, numel in *. unfold Qnat in *.
    destruct (norm cfg); cbn [norm_eq_2] in *.
    + rewrite Qred_inject. field. exact Hnz.
    + field. intros H0. apply Hnz.
      unfold Qeq in H0. simpl in H0. lia.
Qed.

Lemma Qsign_cases a : Qsign a = -(1) \/ Qsign a = 0 \/ Qsign a = 1.
Proof.
  unfold Qsign. destruct (Qlt_bool a 0); [auto|].
  destruct (Qlt_bool 0 a); auto.
Qed.

Lemma step_within e :
  forall cur upd,
    Forall (fun u => u = -(1) \/ u = 0 \/ u = 1) upd ->
    Forall (fun d => Qabs d <= Qabs e) (vsub (vadd cur (vscale e upd)) cur).
Proof.
  unfold vsub, vadd, vscale.
  induction cur as [|c cur IH]; intros [|u upd] Hupd; cbn [zip_with map];
    try constructor.
  - inversion Hupd as [|? ? Hu _]; subst.
    apply Qabs_Qle_condition.
    pose proof (Qle_Qabs e) as H1. pose proof (Qle_Qabs (- e)) as H2.
    rewrite Qabs_opp in H2.
    destruct Hu as [-> | [-> | ->]]; split; lra.
  - inversion Hupd; subst. apply IH. assumption.
Qed.

(** X10. Under the infinity norm every entry of the update the direction
    estimator returns is -1, 0 or 1, there is one entry per element of the
    input shape, and a step of size [e] along it changes no coordinate by
    more than [|e|]. *)
Theorem linf_update_is_sign :
  forall cur num_eval delta target mask lo hi st upd st',
    norm cfg = Linf ->
    _compute_update E cfg cur num_eval delta target mask lo hi st = Ret (upd, st') ->
    length upd = numel cfg
    /\ Forall (fun u => u = -(1) \/ u = 0 \/ u = 1) upd
    /\ (forall e from,
          Forall (fun d => Qabs d <= Qabs e) (vsub (vadd from (vscale e upd)) from)).
Proof.
  intros cur num_eval delta target mask lo hi st upd st' Hn H.
  apply compute_update_ret_inv in H.
  destruct H as (drawn & ev & rn & grad & _ & _ & Hgrad & Hupd).
  apply estimate_grad_length in Hgrad.
  unfold normalize_update in Hupd. rewrite Hn in Hupd. simpl in Hupd.
  inversion Hupd; subst upd. clear Hupd.
  assert (Hsign : forall g, Forall (fun u => u = -(1) \/ u = 0 \/ u = 1) (map Qsign g)).
  { intros g. apply Forall_map, Forall_forall. intros a _. apply Qsign_cases. }
  split; [|split].
  - rewrite length_map. exact Hgrad.
  - apply Hsign.
  - intros e from. apply step_within, Hsign.
Qed.

(** *** The finder always returns *)

Lemma untargeted_draws_returns fuel x y_p mask lo hi :
  (10 <= fuel)%nat ->
  forall n st,
    exists found k,
      (k <= n)%nat
      /\ untargeted_draws E cfg n fuel x y_p mask lo hi st
         = Ret (found, advance_unif k st).
Proof.
  intros Hfuel. induction n as [|n IH]; intros st.
  - exists None, O. split; [lia|]. simpl. unfold ret. rewrite advance_unif_0.
    reflexivity.
  - rewrite untargeted_draws_step. destruct (negb _).
    + destruct (binary_search_init_returns fuel (the_draw x mask lo hi (unif_pos st))
                  x (inject_Z y_p) lo hi Hfuel) as [r Hr].
      exists (Some (r, inject_Z y_p)), 1%nat. split; [lia|].
      unfold bind, lift. rewrite Hr. reflexivity.
    + destruct (IH (advance_unif 1 st)) as (found & k & Hk & Hrun).
      exists found, (S k). split; [lia|].
      rewrite Hrun, advance_unif_succ. reflexivity.
Qed.

Lemma targeted_draws_returns fuel x y mask lo hi :
  (10 <= fuel)%nat ->
  forall n acc st,
    exists found,
      targeted_draws E cfg n fuel x y mask lo hi acc st
      = Ret (found, advance_unif n st).
Proof.
  intros Hfuel. induction n as [|n IH]; intros acc st.
  - exists acc. simpl. unfold ret. rewrite advance_unif_0. reflexivity.
  - rewrite targeted_draws_step. destruct (_ =? _)%Z.
    + destruct (binary_search_init_returns fuel (the_draw x mask lo hi (unif_pos st))
                  x (inject_Z y) lo hi Hfuel) as [r Hr].
      unfold bind, lift. rewrite Hr.
      match goal with
      | |- context [targeted_draws E cfg n fuel x y mask lo hi ?a _] =>
          destruct (IH a (advance_unif 1 st)) as (found & Hrun)
      end.
      exists found. rewrite Hrun, advance_unif_succ. reflexivity.
    + destruct (IH acc (advance_unif 1 st)) as (found & Hrun).
      exists found. rewrite Hrun, advance_unif_succ. reflexivity.
Qed.

(** X11. Without a caller-supplied initial example the finder always returns
    once the fuel allows the ten passes of one projection: it never raises,
    it reads at most [init_size] arrays of uniform draws, and it touches
    neither [curr_iter] nor the noise source. *)
Theorem init_sample_returns :
  forall fuel x y y_p init_pred mask lo hi st,
    (10 <= fuel)%nat ->
    exists found k,
      (k <= init_size cfg)%nat
      /\ _init_sample E cfg fuel x y y_p init_pred None mask lo hi st
         = Ret (found, advance_unif k st).
Proof.
  intros fuel x y y_p init_pred mask lo hi st Hfuel.
  unfold _init_sample. destruct (targeted cfg).
  - destruct (y =? y_p)%Z.
    + exists None, O. split; [lia|]. unfold ret. rewrite advance_unif_0. reflexivity.
    + destruct (targeted_draws_returns fuel x y mask lo hi Hfuel (init_size cfg)
                  None st) as (found & Hrun).
      exists found, (init_size cfg). split; [lia|]. exact Hrun.
  - destruct (untargeted_draws_returns fuel x y_p mask lo hi Hfuel (init_size cfg) st)
      as (found & k & Hk & Hrun).
    exists found, k. split; [exact Hk | exact Hrun].
Qed.

(** *** [generate] without passes of the main loop *)

Lemma perturb_returns_without_passes fuel x y y_p init_pred mask lo hi st :
  max_iter cfg = O ->
  (10 <= fuel)%nat ->
  exists out k,
    (k <= init_size cfg)%nat
    /\ _perturb E cfg fuel x y y_p init_pred None mask lo hi st
       = Ret (out, advance_unif k st).
Proof.
  intros Hiter Hfuel.
  destruct (init_sample_returns fuel x y y_p init_pred mask lo hi st Hfuel)
    as (found & k & Hk & Hrun).
  unfold _perturb, bind. rewrite Hrun.
  destruct found as [[s t]|].
  - exists s, k. split; [exact Hk|]. unfold _attack. rewrite Hiter. reflexivity.
  - exists x, k. split; [exact Hk | reflexivity].
Qed.

Lemma perturb_all_returns fuel start y preds init_preds x_adv_init lo hi :
  max_iter cfg = O ->
  (10 <= fuel)%nat ->
  (forall i, nth i x_adv_init None = None) ->
  forall todo ind st,
    (targeted cfg = true ->
     exists ys, y = Some ys /\ (ind + length todo <= length ys)%nat) ->
    exists outs st',
      perturb_all E cfg fuel start y preds init_preds x_adv_init lo hi ind todo st
      = Ret (outs, st')
      /\ noise_pos st' = noise_pos st
      /\ (unif_pos st <= unif_pos st')%nat
      /\ (unif_pos st' <= unif_pos st + length todo * init_size cfg)%nat.
Proof.
  intros Hiter Hfuel Hnone.
  induction todo as [|val rest IH]; intros ind st Hy.
  - exists [], st. simpl. repeat split; lia.
  - assert (Hl : exists y_ind, label_arg cfg y ind = Ret y_ind).
    { unfold label_arg. destruct (targeted cfg); [|eauto].
      destruct (Hy eq_refl) as (ys & -> & Hlen). simpl in Hlen.
      destruct (nth_error ys ind) eqn:Hn; [eauto|].
      apply nth_error_None in Hn. lia. }
    destruct Hl as [y_ind Hl].
    destruct (perturb_returns_without_passes fuel val y_ind (nth ind preds 0%Z)
                (nth ind init_preds None) None lo hi (with_curr_iter start st)
                Hiter Hfuel) as (out & k & Hk & Hout).
    destruct (IH (S ind) (advance_unif k (with_curr_iter start st))) as
      (outs & st' & Hrun & Hn & Hu1 & Hu2).
    { intros Ht. destruct (Hy Ht) as (ys & -> & Hlen).
      exists ys. split; [reflexivity|]. simpl in Hlen. lia. }
    exists (out :: outs), st'.
    unfold advance_unif, with_curr_iter in Hn, Hu1, Hu2.
    cbn [noise_pos unif_pos length] in *.
    split; [|repeat split; try rewrite Nat.mul_succ_l; lia].
    simpl. unfold bind at 1. simpl. unfold bind at 1. unfold lift at 1. rewrite Hl.
    unfold bind at 1. fold (with_curr_iter start st).
    rewrite Hnone, Hout. unfold bind. rewrite Hrun. reflexivity.
Qed.

(** X12. With [max_iter = 0], no initial examples and fuel for the ten passes
    of a projection, [generate] returns for every batch that holds an element
    (and, for a targeted attack, comes with a label per sample): it reads at
    most [init_size] arrays of uniform draws per sample and no noise. *)
Theorem generate_returns_without_passes :
  forall fuel x y mask resume st,
    max_iter cfg = O ->
    (10 <= fuel)%nat ->
    concat x <> [] ->
    (targeted cfg = true -> exists ys, y = Some ys /\ (length x <= length ys)%nat) ->
    exists out st',
      generate E cfg fuel x y mask None resume st = Ret (out, st')
      /\ noise_pos st' = noise_pos st
      /\ (unif_pos st' <= unif_pos st + length x * init_size cfg)%nat.
Proof.
  intros fuel x y mask resume st Hiter Hfuel Hx Hy.
  unfold generate, bind, get_curr_iter, lift, batch_bounds.
  destruct (concat x) as [|q qs] eqn:Hc; [contradiction|].
  assert (Hlabels : targeted cfg && match y with None => true | Some _ => false end
                    = false).
  { destruct (targeted cfg); [|reflexivity].
    destruct (Hy eq_refl) as (ys & -> & _). reflexivity. }
  rewrite Hlabels.
  destruct (perturb_all_returns fuel (start_of resume st) y
              (map (predict E (apply_softmax cfg)) x) (repeat None (length x))
              (repeat None (length x)) (list_min (q :: qs)) (list_max (q :: qs))
              Hiter Hfuel (fun i => nth_repeat None (length x) i) x O st)
    as (outs & st' & Hrun & Hn & _ & Hu).
  { intros Ht. destruct (Hy Ht) as (ys & -> & Hlen). exists ys.
    split; [reflexivity | exact Hlen]. }
  exists outs, st'. split; [exact Hrun | split; assumption].
Qed.

(** *** [generate] with initial examples, and its errors *)

Lemma list_set_length {A} (l : list A) i a : length (list_set l i a) = length l.
Proof.
  revert i. induction l as [|h t IH]; intros [|i]; simpl; auto.
Qed.

Lemma blend_init_ret n : forall i x mask a a',
  blend_init n i x mask a = Ret a' ->
  length a' = length a /\ ((1 <= n)%nat -> (i < length a)%nat).
Proof.
  induction n as [|n IH]; intros i x mask a a' H; simpl in H.
  - inversion H; subst. split; [reflexivity | lia].
  - destruct mask as [m|]; [|discriminate].
    destruct (nth_error m i); [|discriminate].
    destruct (nth_error a i) as [init_i|] eqn:Ha; [|discriminate].
    destruct (nth_error x i); [|discriminate].
    apply IH in H. destruct H as [Hlen _]. rewrite list_set_length in Hlen.
    split; [exact Hlen|]. intros _. apply nth_error_Some. congruence.
Qed.

Lemma blend_init_fuel n : forall i x mask a,
  blend_init n i x mask a <> OutOfFuel.
Proof.
  induction n as [|n IH]; intros i x mask a; simpl; [discriminate|].
  destruct mask as [m|]; [|discriminate].
  destruct (nth_error m i); [|discriminate].
  destruct (nth_error a i); [|discriminate].
  destruct (nth_error x i); [|discriminate].
  apply IH.
Qed.

Lemma blend_init_finite n : forall i x mask a,
  blend_init n i x mask a <> NotFinite.
Proof.
  induction n as [|n IH]; intros i x mask a; simpl; [discriminate|].
  destruct mask as [m|]; [|discriminate].
  destruct (nth_error m i); [|discriminate].
  destruct (nth_error a i); [|discriminate].
  destruct (nth_error x i); [|discriminate].
  apply IH.
Qed.

(** X13. For an untargeted attack on a classifier with at least two classes,
    [generate] never returns when initial examples are supplied: what it keeps
    as their predictions are the estimator's rows of scores, and comparing
    such a row with a label has no truth value. *)
Theorem generate_with_initial_examples_raises :
  two_classes ->
  targeted cfg = false ->
  forall fuel x y mask a resume st,
    exists e, generate E cfg fuel x y mask (Some a) resume st = Raise e.
Proof.
  intros H2 Ht fuel x y mask a resume st.
  unfold generate, bind, get_curr_iter, lift, batch_bounds.
  destruct (concat x) as [|q qs] eqn:Hc; [eauto|].
  destruct x as [|val rest]; [discriminate|].
  destruct (blend_init (length (val :: rest)) 0 (val :: rest) mask a)
    as [a'|e| |] eqn:Hb;
    [| eauto | exfalso; exact (blend_init_fuel _ _ _ _ _ Hb)
     | exfalso; exact (blend_init_finite _ _ _ _ _ Hb)].
  apply blend_init_ret in Hb. destruct Hb as [Hlen Hpos].
  specialize (Hpos ltac:(simpl; lia)).
  destruct a' as [|a0 a']; [simpl in Hlen; lia|].
  rewrite Ht. cbn [andb].
  exists RuntimeError.
  cbn [perturb_all]. unfold bind at 1. cbn [set_curr_iter].
  unfold bind at 1. unfold lift at 1. unfold label_arg. rewrite Ht.
  unfold bind at 1. unfold _perturb. unfold bind at 1.
  unfold _init_sample. rewrite Ht. unfold bind at 1. unfold lift at 1.
  cbn [map nth]. rewrite adv_init_test_raises by apply H2. reflexivity.
Qed.

Lemma perturb_all_missing_label fuel start ys preds init_preds x_adv_init lo hi :
  targeted cfg = true ->
  forall todo ind st,
    (ind <= length ys)%nat ->
    (length ys < ind + length todo)%nat ->
    (forall i, (ind <= i < length ys)%nat ->
               nth_error ys i = Some (nth i preds 0%Z)) ->
    perturb_all E cfg fuel start (Some ys) preds init_preds x_adv_init lo hi
      ind todo st = Raise IndexError.
Proof.
  intros Ht. induction todo as [|val rest IH]; intros ind st Hind Hlen Hsame.
  - simpl in Hlen. lia.
  - destruct (Nat.eq_dec ind (length ys)) as [->|Hne].
    + simpl. unfold bind at 1. simpl. unfold bind at 1. unfold lift at 1.
      unfold label_arg. rewrite Ht.
      assert (Hn : nth_error ys (length ys) = None) by (apply nth_error_None; lia).
      rewrite Hn. reflexivity.
    + assert (Hl : label_arg cfg (Some ys) ind = Ret (nth ind preds 0%Z)).
      { unfold label_arg. rewrite Ht, Hsame by lia. reflexivity. }
      rewrite (perturb_all_on_failure _ _ _ _ _ _ _ _ _ _ _ _ _ _ Hl
                 (targeted_same_label_fails _ _ _ _ _ _ _ _ _ Ht)).
      unfold bind. rewrite IH; [reflexivity | lia | simpl in Hlen; lia |].
      intros i Hi. apply Hsame. lia.
Qed.

(** X14. The errors of [generate].  A batch without any element ends in a
    [ValueError] whatever else is passed.  A targeted attack without labels
    and without initial examples ends in a [ValueError] before any sample is
    attacked.  A targeted attack with fewer labels than samples ends in an
    [IndexError] at the first sample without a label, once the samples before
    it, whose targets are their predicted labels, have been handed back. *)
Theorem generate_errors :
  (forall fuel x y mask x_adv_init resume st,
      concat x = [] ->
      generate E cfg fuel x y mask x_adv_init resume st = Raise ValueError)
  /\ (forall fuel x mask resume st,
      targeted cfg = true ->
      generate E cfg fuel x None mask None resume st = Raise ValueError)
  /\ (forall fuel x ys mask resume st,
      targeted cfg = true ->
      concat x <> [] ->
      (length ys < length x)%nat ->
      ys = firstn (length ys) (map (predict E (apply_softmax cfg)) x) ->
      generate E cfg fuel x (Some ys) mask None resume st = Raise IndexError).
Proof.
  split; [|split].
  - intros fuel x y mask x_adv_init resume st Hx.
    unfold generate, bind, get_curr_iter, lift, batch_bounds. rewrite Hx. reflexivity.
  - intros fuel x mask resume st Ht.
    unfold generate, bind, get_curr_iter, lift, batch_bounds.
    destruct (concat x); [reflexivity|]. rewrite Ht. reflexivity.
  - intros fuel x ys mask resume st Ht Hx Hlen Hys.
    unfold generate, bind, get_curr_iter, lift, batch_bounds.
    destruct (concat x) as [|q qs]; [contradiction|].
    rewrite Ht. cbn [andb].
    apply perturb_all_missing_label; [exact Ht | lia | simpl; exact Hlen |].
    intros i Hi. rewrite Hys at 1.
    rewrite nth_error_firstn.
    destruct (Nat.ltb_spec i (length ys)) as [_|Hbad]; [|lia].
    apply nth_error_nth'. rewrite length_map.
    destruct Hi as [_ Hi]. exact (Nat.lt_trans _ _ _ Hi Hlen).
Qed.

(** *** Shapes *)

Lemma binary_search_length fuel cur orig target n lo hi thr r :
  _binary_search E cfg fuel cur orig target n lo hi thr = Ret r ->
  length r = Nat.min (length orig) (length cur).
Proof.
  intros H. unfold _binary_search in H.
  destruct (bs_init cfg cur orig n thr) as [[ub lb] t].
  destruct (bs_loop E cfg fuel cur orig target n lo hi t lb ub) as [[l u]| | |];
    try discriminate.
  inversion H; subst r. rewrite interpolate_spec. unfold spec_result.
  destruct n; apply zip_with_length.
Qed.

Lemma compute_update_length cur num_eval delta target mask lo hi st upd st' :
  _compute_update E cfg cur num_eval delta target mask lo hi st = Ret (upd, st') ->
  length upd = numel cfg.
Proof.
  intros H. apply compute_update_ret_inv in H.
  destruct H as (drawn & ev & rn & grad & _ & _ & Hgrad & Hupd).
  apply estimate_grad_length in Hgrad. apply normalize_update_length in Hupd.
  congruence.
Qed.

Lemma attack_iteration_length fuel cur orig target mask lo hi st cur' st' :
  length cur = numel cfg -> length orig = numel cfg ->
  attack_iteration E cfg fuel cur orig target mask lo hi st = Ret (cur', st') ->
  length cur' = numel cfg.
Proof.
  intros Hc Ho H. apply attack_iteration_ret_inv in H.
  destruct H as (cur_bs & upd & st1 & k & Hbs & Hupd & _ & _ & -> & _).
  apply binary_search_length in Hbs. apply compute_update_length in Hupd.
  unfold vclip, candidate, vadd, vscale.
  rewrite length_map, zip_with_length, length_map. lia.
Qed.

Lemma attack_loop_length orig target mask lo hi :
  length orig = numel cfg ->
  forall iters fuel cur st out st',
    length cur = numel cfg ->
    attack_loop E cfg iters fuel cur orig target mask lo hi st = Ret (out, st') ->
    length out = numel cfg.
Proof.
  intros Ho. induction iters as [|iters IH]; intros fuel cur st out st' Hc H;
    simpl in H.
  - unfold ret in H. inversion H; subst. exact Hc.
  - run_bind H as cur' st1 Hit.
    eapply IH; [|exact H].
    eapply attack_iteration_length; [exact Hc | exact Ho | exact Hit].
Qed.

Lemma draw_length x lo hi pos : length (the_draw x None lo hi pos) = length x.
Proof. unfold the_draw, masked. rewrite length_map, length_seq. reflexivity. Qed.

Lemma untargeted_draws_length fuel x y_p lo hi :
  forall n st found st',
    untargeted_draws E cfg n fuel x y_p None lo hi st = Ret (found, st') ->
    found_shape (length x) found.
Proof.
  induction n as [|n IH]; intros st found st' H.
  - simpl in H. unfold ret in H. inversion H; subst. exact I.
  - rewrite untargeted_draws_step in H. destruct (negb _).
    + run_bind H as r st1 Hbs. apply lift_ret_inv in Hbs. destruct Hbs as [Hbs _].
      unfold ret in H. inversion H; subst. simpl.
      apply binary_search_length in Hbs. rewrite draw_length in Hbs. lia.
    + eapply IH. exact H.
Qed.

Lemma targeted_draws_length fuel x y lo hi :
  forall n acc st found st',
    found_shape (length x) acc ->
    targeted_draws E cfg n fuel x y None lo hi acc st = Ret (found, st') ->
    found_shape (length x) found.
Proof.
  induction n as [|n IH]; intros acc st found st' Hacc H.
  - simpl in H. unfold ret in H. inversion H; subst. exact Hacc.
  - rewrite targeted_draws_step in H. destruct (_ =? _)%Z.
    + run_bind H as r st1 Hbs. apply lift_ret_inv in Hbs. destruct Hbs as [Hbs _].
      eapply IH; [|exact H]. simpl.
      apply binary_search_length in Hbs. rewrite draw_length in Hbs. lia.
    + eapply IH; eassumption.
Qed.

Lemma perturb_length fuel x y y_p init_pred lo hi st out st' :
  length x = numel cfg ->
  _perturb E cfg fuel x y y_p init_pred None None lo hi st = Ret (out, st') ->
  length out = length x.
Proof.
  intros Hx H. unfold _perturb in H. run_bind H as found st1 Hfound.
  assert (Hshape : found_shape (length x) found).
  { unfold _init_sample in Hfound. destruct (targeted cfg).
    - destruct (y =? y_p)%Z.
      + unfold ret in Hfound. inversion Hfound; subst. exact I.
      + eapply targeted_draws_length; [|exact Hfound]. exact I.
    - eapply untargeted_draws_length. exact Hfound. }
  destruct found as [[s t]|].
  - simpl in Hshape. unfold _attack in H. rewrite Hx.
    eapply attack_loop_length; [exact Hx | | exact H]. congruence.
  - unfold ret in H. inversion H; subst. reflexivity.
Qed.

Lemma perturb_all_length fuel start y preds init_preds x_adv_init lo hi :
  (forall i, nth i x_adv_init None = None) ->
  forall todo ind st outs st',
    Forall (fun s => length s = numel cfg) todo ->
    perturb_all E cfg fuel start y preds init_preds x_adv_init lo hi ind todo st
    = Ret (outs, st') ->
    Forall2 (fun xi oi => length oi = length xi) todo outs.
Proof.
  intros Hnone. induction todo as [|val rest IH]; intros ind st outs st' Htodo H;
    simpl in H.
  - unfold ret in H. inversion H; subst. constructor.
  - inversion Htodo as [|? ? Hval Hrest]; subst.
    run_bind H as u sta Hset.
    run_bind H as y_ind stb Hlabel.
    run_bind H as o stc Hout.
    run_bind H as outs' std Houts.
    unfold ret in H. inversion H; subst. constructor.
    + rewrite Hnone in Hout. eapply perturb_length; eassumption.
    + eapply IH; eassumption.
Qed.

(** X15. [generate] keeps shapes: without initial examples, for a batch whose
    samples have the number of elements of the configured input shape, it
    returns one sample per input sample, each with as many elements as its
    input. *)
Theorem generate_keeps_shape :
  forall fuel x y mask resume st out st',
    Forall (fun s => length s = numel cfg) x ->
    generate E cfg fuel x y mask None resume st = Ret (out, st') ->
    Forall2 (fun xi oi => length oi = length xi) x out.
Proof.
  intros fuel x y mask resume st out st' Hx H.
  unfold generate in H.
  run_bind H as it st1 Hget.
  run_bind H as bounds st2 Hb. destruct bounds as [lo hi].
  run_bind H as inits st3 Hinits. apply lift_ret_inv in Hinits.
  destruct Hinits as [Hinits _]. inversion Hinits; subst inits. clear Hinits.
  destruct (targeted cfg && _); [discriminate|].
  eapply perturb_all_length; [|exact Hx | exact H].
  intros i. apply nth_repeat.
Qed.

(** *** A mask, where it is passed *)


Lemma coord_is_Qeq j s v w : coord_is j s v -> v == w -> coord_is j s w.
Proof.
  intros (a & Ha & Hv) Hw. exists a. split; [exact Ha | lra].
Qed.
















(** *** The counter at entry *)

(** X20. Unless it is called with [resume], [generate] does not depend on the
    value [curr_iter] was left at by earlier calls: from two states that
    differ in it only, it gives the same result and leaves the same state,
    for every batch that holds an element. *)
Theorem generate_restarts_counter :
  forall fuel x y mask x_adv_init resume st1 st2,
    resume <> Some true ->
    concat x <> [] ->
    unif_pos st1 = unif_pos st2 ->
    noise_pos st1 = noise_pos st2 ->
    generate E cfg fuel x y mask x_adv_init resume st1
    = generate E cfg fuel x y mask x_adv_init resume st2.
Proof.
  intros fuel x y mask x_adv_init resume st1 st2 Hres Hx Hu Hn.
  assert (Hstart : forall st, start_of resume st = O).
  { intros st. unfold start_of. destruct resume as [[|]|]; congruence. }
  unfold generate, bind, get_curr_iter, lift.
  fold (start_of resume st1). fold (start_of resume st2). rewrite !Hstart.
  destruct (batch_bounds x) as [[lo hi]| | |]; try reflexivity.
  destruct (match x_adv_init with
            | Some a => _
            | None => _
            end) as [[init_preds inits]| | |]; try reflexivity.
  destruct (targeted cfg && _); [reflexivity|].
  destruct x as [|val rest]; [exfalso; apply Hx; reflexivity|].
  cbn [perturb_all]. unfold bind at 1 5. cbn [set_curr_iter].
  rewrite Hu, Hn. reflexivity.
Qed.

(** *** A caller-supplied initial example, and the threshold of the constructor *)

(** X21. What the finder does with a caller-supplied initial example.  When
    its prediction is one number, the example is taken as it is, without a
    draw and without a projection, if that number is the target (targeted) or
    is not the original's label (untargeted).  When its prediction is a row of
    two or more scores, the comparison raises a [RuntimeError], except in the
    targeted case that has ended before, with the target equal to the
    original's label. *)
Theorem init_sample_with_initial_example :
  forall fuel x y y_p a mask lo hi st,
    (forall v,
        targeted cfg = true -> y <> y_p -> v == inject_Z y ->
        _init_sample E cfg fuel x y y_p (Some [v]) (Some a) mask lo hi st
        = Ret (Some (a, v), st))
    /\ (forall v,
        targeted cfg = false -> ~ v == inject_Z y_p ->
        _init_sample E cfg fuel x y y_p (Some [v]) (Some a) mask lo hi st
        = Ret (Some (a, inject_Z y_p), st))
    /\ (forall row,
        (2 <= length row)%nat ->
        (targeted cfg = true -> y <> y_p) ->
        _init_sample E cfg fuel x y y_p (Some row) (Some a) mask lo hi st
        = Raise RuntimeError).
Proof.
  intros fuel x y y_p a mask lo hi st. split; [|split].
  - intros v Ht Hy Hv. unfold _init_sample. rewrite Ht.
    apply Z.eqb_neq in Hy. rewrite Hy.
    apply Qeq_bool_iff in Hv. unfold bind, lift. simpl. rewrite Hv. reflexivity.
  - intros v Ht Hv. unfold _init_sample. rewrite Ht.
    assert (Hb : Qeq_bool v (inject_Z y_p) = false).
    { apply not_true_is_false. intros H. apply Hv, Qeq_bool_iff, H. }
    unfold bind, lift. simpl. rewrite Hb. reflexivity.
  - intros row Hrow Hy. unfold _init_sample. destruct (targeted cfg).
    + specialize (Hy eq_refl). apply Z.eqb_neq in Hy. rewrite Hy.
      unfold bind, lift. rewrite adv_init_test_raises by exact Hrow. reflexivity.
    + unfold bind, lift. rewrite adv_init_test_raises by exact Hrow. reflexivity.
Qed.

(** X22. With [theta] as the constructor derives it, and an input shape that
    holds an element (for norm 2, a square root of its size that is positive),
    [theta] is positive and every binary search of the main loop returns once
    given enough fuel, whatever the oracle answers. *)
Theorem constructed_theta_terminates :
  theta cfg = init_theta E (norm cfg) (input_shape cfg) ->
  match norm cfg with
  | L2 => 0 < sqrt E (Qnat (numel cfg))
  | Linf => numel cfg <> O
  end ->
  0 < theta cfg
  /\ forall cur orig target lo hi,
       exists k, forall fuel, (k <= fuel)%nat ->
         exists r,
           _binary_search E cfg fuel cur orig target (norm cfg) lo hi None = Ret r.
Proof.
  intros Htheta Hpos.
  assert (Ht : 0 < theta cfg).
  { rewrite Htheta. unfold init_theta, numel in *.
    destruct (norm cfg); cbn [norm_eq_2].
    - apply Qlt_shift_div_l; [exact Hpos | lra].
    - apply Qlt_shift_div_l; [|lra].
      unfold Qnat. change 0 with (inject_Z 0). rewrite <- Zlt_Qlt. lia. }
  split; [exact Ht|].
  intros cur orig target lo hi. apply binary_search_returns. exact Ht.
Qed.

End Properties.

(** C3. A batch of one two-element sample with mask [[1; 0]]: the mask says
    the second coordinate stays at the original's value 1, and the run returns
    a sample whose second coordinate is not 1. *)
Theorem mask_zero_coordinate_is_perturbed :
  exists out st,
    generate Examples.world (Examples.untargeted_l2 0) 20 [[0; 1]] None
      (Some [[1; 0]]) None None Examples.s0 = Ret ([out], st)
    /\ ~ nth 1 out 0 == 1.
Proof.
  eexists. eexists. split.
  - vm_compute. reflexivity.
  - vm_compute. discriminate.
Qed.

(** ** The theorems at concrete runs *)

Import Examples.

Lemma world_softmax : softmax_keeps_argmax world.
Proof. intros row. reflexivity. Qed.

Lemma world_unit_draws : unit_draws world.
Proof.
  intros k j. simpl. destruct (Nat.even (k + j)); split; vm_compute; discriminate.
Qed.

Lemma world_two_classes : two_classes world.
Proof. intros s. simpl. lia. Qed.

Lemma original_in_range : in_range 0 1 [0; 1].
Proof. repeat constructor; vm_compute; discriminate. Qed.

Lemma attack_output_is_adversarial_witness :
  exists s t st1 out st2,
    _init_sample world (untargeted_l2 1) 40 [0; 1] (-1)
      (predict world false [0; 1]) None None None 0 1 s0 = Ret (Some (s, t), st1)
    /\ _attack world (untargeted_l2 1) 40 s [0; 1] t None 0 1 st1 = Ret (out, st2)
    /\ predict world false out <> predict world false [0; 1].
Proof.
  do 5 eexists. split; [vm_compute; reflexivity|].
  split; [vm_compute; reflexivity|].
  refine (proj1 (attack_output_is_adversarial world (untargeted_l2 1) 40 [0; 1]
                   (-1) None None None 0 1 s0 _ _ _
                   world_softmax world_unit_draws I original_in_range _ _) _ _ _).
  - intros a Ha. discriminate Ha.
  - vm_compute. reflexivity.
  - vm_compute. reflexivity.
Defined.

Lemma binary_search_is_bisection_witness :
  exists k, forall fuel, (k <= fuel)%nat ->
    exists r,
      _binary_search world (untargeted_l2 0) fuel [3 # 4; 1 # 4] [0; 1] 0 L2 0 1 None
      = Ret r.
Proof.
  apply (proj2 (proj2 (binary_search_is_bisection world (untargeted_l2 0)
                         [3 # 4; 1 # 4] [0; 1] 0 L2 0 1))).
  vm_compute. reflexivity.
Defined.

Lemma init_failure_returns_input_witness :
  generate world targeted_l2 5 [[0; 1]]
    (Some (map (predict world (apply_softmax targeted_l2)) [[0; 1]])) None None None s0
  = Ret ([[0; 1]], with_curr_iter (start_of None s0) s0).
Proof.
  apply (proj2 (proj2 (proj2 (init_failure_returns_input world targeted_l2)))).
  - reflexivity.
  - discriminate.
Defined.

Lemma init_sample_selection_policies_witness :
  exists r,
    _binary_search world (untargeted_l2 0) 20
      (the_draw world [0; 1] None 0 1 (0 + unif_pos s0)) [0; 1] (inject_Z 0) L2 0 1
      (Some (1 # 1000)) = Ret r
    /\ _init_sample world (untargeted_l2 0) 20 [0; 1] (-1) 0 None None None 0 1 s0
       = Ret (Some (r, inject_Z 0), advance_unif 1 s0).
Proof.
  refine (proj2 (proj1 (init_sample_selection_policies world (untargeted_l2 0) 20
                          [0; 1] (-1) 0 None None 0 1 s0 _) _) 0%nat _ _ _).
  - lia.
  - reflexivity.
  - simpl. lia.
  - intros j Hj. lia.
  - vm_compute. reflexivity.
Defined.


Lemma step_size_search_unbounded_witness :
  _attack constant_world (untargeted_l2 1) 1000 [3 # 4; 1 # 4] [0; 1] 0 None 0 1 s0
  = OutOfFuel.
Proof.
  assert (Hnever : forall s,
             first_flag (_adversarial_satisfactory constant_world (untargeted_l2 1)
                           [s] 0 0 1) = false) by (intros s; reflexivity).
  assert (Hiter : (1 <= max_iter (untargeted_l2 1))%nat) by (simpl; lia).
  destruct (proj2 (proj2 (proj2 (step_size_search_unbounded constant_world
                                   (untargeted_l2 1)))) 0 0 1 Hnever Hiter
              1000%nat [3 # 4; 1 # 4] [0; 1] None s0)
    as [H | (cur_bs & Hbs & Hupd & _)]; [exact H|].
  exfalso. vm_compute in Hbs. inversion Hbs; subst cur_bs.
  vm_compute in Hupd. discriminate Hupd.
Defined.



(** ** The attack object: construction, validation and update *)

Section DynamicFacts.

Import Dynamic.

Lemma step_known_key (kv : String.string * value) :
  existsb (String.eqb (fst kv)) attack_params = true ->
  In (fst kv) attack_params.
Proof.
  intros H. apply existsb_exists in H. destruct H as (k & Hin & Heq).
  apply String.eqb_eq in Heq. rewrite Heq. exact Hin.
Qed.

Lemma getattr_setattr o k k' v :
  In k attack_params -> In k' attack_params ->
  getattr (setattr o k' v) k = if String.eqb k' k then Some v else getattr o k.
Proof.
  intros Hk Hk'. destruct o. unfold attack_params in Hk, Hk'.
  repeat (destruct Hk as [<-|Hk]; [|]); try contradiction;
    repeat (destruct Hk' as [<-|Hk']; [|]); try contradiction; reflexivity.
Qed.

Lemma setattr_frame o k v :
  a_theta (setattr o k v) = a_theta o
  /\ a_input_shape (setattr o k v) = a_input_shape o
  /\ a_apply_softmax (setattr o k v) = a_apply_softmax o.
Proof.
  destruct o. unfold setattr.
  repeat match goal with |- context [if ?b then _ else _] => destruct b end;
    repeat split; reflexivity.
Qed.

Lemma assign_snoc kw kv o :
  assign (kw ++ [kv]) o
  = if existsb (String.eqb (fst kv)) attack_params
    then setattr (assign kw o) (fst kv) (snd kv)
    else assign kw o.
Proof. unfold assign. rewrite fold_left_app. reflexivity. Qed.

Lemma last_value_snoc key kw kv :
  last_value key (kw ++ [kv])
  = if String.eqb (fst kv) key then Some (snd kv) else last_value key kw.
Proof. unfold last_value. rewrite fold_left_app. reflexivity. Qed.

(** X17. [set_params] is a dictionary update followed by the validation: each
    attribute named in [attack_params] ends with the last value the keyword
    arguments hold for it and is otherwise untouched; keys outside
    [attack_params] are skipped; the threshold [theta], derived from the norm
    at construction, is not derived again when the norm is changed; and the
    object keeps the new values when the validation then rejects them. *)
Theorem set_params_updates :
  forall kwargs o,
    snd (set_params kwargs o) = _check_params (fst (set_params kwargs o))
    /\ a_theta (fst (set_params kwargs o)) = a_theta o
    /\ a_input_shape (fst (set_params kwargs o)) = a_input_shape o
    /\ a_apply_softmax (fst (set_params kwargs o)) = a_apply_softmax o
    /\ (forall key,
          In key attack_params ->
          getattr (fst (set_params kwargs o)) key
          = match last_value key kwargs with
            | Some v => Some v
            | None => getattr o key
            end)
    /\ ((forall kv, In kv kwargs -> ~ In (fst kv) attack_params) ->
        fst (set_params kwargs o) = o).
Proof.
  intros kwargs o. unfold set_params. cbn [fst snd].
  split; [reflexivity|].
  induction kwargs as [|kv kw IH] using rev_ind.
  - repeat split; try reflexivity.
  - destruct IH as (Hth & Hsh & Hsm & Hget & Hskip).
    rewrite assign_snoc.
    destruct (existsb (String.eqb (fst kv)) attack_params) eqn:Hknown.
    + pose proof (setattr_frame (assign kw o) (fst kv) (snd kv)) as (F1 & F2 & F3).
      split; [congruence|]. split; [congruence|]. split; [congruence|]. split.
      * intros key Hkey. rewrite last_value_snoc.
        rewrite getattr_setattr; [| exact Hkey | apply step_known_key, Hknown].
        destruct (String.eqb (fst kv) key); [reflexivity | apply Hget, Hkey].
      * intros Hall. exfalso. apply (Hall kv).
        -- apply in_or_app. right. left. reflexivity.
        -- apply step_known_key, Hknown.
    + split; [exact Hth|]. split; [exact Hsh|]. split; [exact Hsm|]. split.
      * intros key Hkey. rewrite last_value_snoc.
        destruct (String.eqb (fst kv) key) eqn:Heq; [|apply Hget, Hkey].
        apply String.eqb_eq in Heq. exfalso.
        assert (Hin : existsb (String.eqb (fst kv)) attack_params = true).
        { apply existsb_exists. exists key. split; [exact Hkey|].
          apply String.eqb_eq. exact Heq. }
        congruence.
      * intros Hall. apply Hskip. intros kv' Hin. apply Hall.
        apply in_or_app. left. exact Hin.
Qed.

(** X18. On arguments of the documented types the constructor is the typed one
    the rest of the development uses: it raises the same error, or builds an
    object from which the search reads the same configuration. *)
Theorem constructor_on_typed_arguments :
  forall E sm shape t n mi me ie sz b,
    outcome_map to_config
      (Dynamic.__init__ E sm shape (VBool t) (norm_value n) (VInt mi) (VInt me)
         (VInt ie) (VInt sz) (VBool b))
    = HopSkipJump.__init__ E sm shape t n mi me ie sz.
Proof.
  intros E sm shape t n mi me ie sz b.
  unfold Dynamic.__init__, HopSkipJump.__init__, Dynamic._check_params,
    HopSkipJump._check_params, not_int_or.
  cbn [a_norm a_max_iter a_max_eval a_init_eval a_init_size a_verbose as_int].
  assert (Hn : norm_in_list (norm_value n) = true) by (destruct n; reflexivity).
  rewrite Hn. cbn [negb].
  destruct (mi <? 0)%Z; [reflexivity|].
  destruct (me <=? 0)%Z; [reflexivity|].
  destruct (ie <=? 0)%Z; [reflexivity|].
  destruct (me <? ie)%Z; [reflexivity|].
  destruct (sz <=? 0)%Z; [reflexivity|].
  unfold outcome_map, to_config, count.
  cbn [a_apply_softmax a_input_shape a_targeted a_norm a_max_iter a_max_eval
       a_init_eval a_init_size a_theta as_int truthy].
  destruct n; reflexivity.
Qed.

(** X19. What the validation accepts: a norm equal to 2, infinity or the
    string "inf"; integers (a [bool] counts as one, a [float] does not) with
    [max_iter >= 0], [0 < init_eval <= max_eval] and [init_size > 0]; and a
    [bool] as [verbose].  Every rejection is a [ValueError]. *)
Theorem check_params_accepts :
  forall o,
    (Dynamic._check_params o = None <->
     norm_in_list (a_norm o) = true
     /\ exists mi me ie sz b,
          as_int (a_max_iter o) = Some mi /\ as_int (a_max_eval o) = Some me
          /\ as_int (a_init_eval o) = Some ie /\ as_int (a_init_size o) = Some sz
          /\ a_verbose o = VBool b
          /\ (0 <= mi /\ 0 < ie /\ ie <= me /\ 0 < sz)%Z)
    /\ (forall e, Dynamic._check_params o = Some e -> e = ValueError).
Proof.
  intros o. unfold Dynamic._check_params, not_int_or. split; [split|].
  - intros H.
    destruct (norm_in_list (a_norm o)); [|discriminate]. cbn [negb] in H.
    destruct (as_int (a_max_iter o)) as [mi|]; [|discriminate].
    destruct (mi <? 0)%Z eqn:H1; [discriminate|].
    destruct (as_int (a_max_eval o)) as [me|]; [|discriminate].
    destruct (me <=? 0)%Z eqn:H2; [discriminate|].
    destruct (as_int (a_init_eval o)) as [ie|]; [|discriminate].
    destruct (ie <=? 0)%Z eqn:H3; [discriminate|].
    destruct (me <? ie)%Z eqn:H4; [discriminate|].
    destruct (as_int (a_init_size o)) as [sz|]; [|discriminate].
    destruct (sz <=? 0)%Z eqn:H5; [discriminate|].
    destruct (a_verbose o) as [|b| | | |] eqn:Hv; try discriminate.
    split; [reflexivity|]. exists mi, me, ie, sz, b.
    repeat split; try reflexivity; lia.
  - intros (Hn & mi & me & ie & sz & b & -> & -> & -> & -> & -> & Hb).
    rewrite Hn. cbn [negb].
    assert (H1 : (mi <? 0)%Z = false) by lia.
    assert (H2 : (me <=? 0)%Z = false) by lia.
    assert (H3 : (ie <=? 0)%Z = false) by lia.
    assert (H4 : (me <? ie)%Z = false) by lia.
    assert (H5 : (sz <=? 0)%Z = false) by lia.
    rewrite H1, H2, H3, H4, H5. reflexivity.
  - intros e H.
    repeat match type of H with
           | (if ?c then _ else _) = _ => destruct c
           end; congruence.
Qed.

End DynamicFacts.


(** ** Further theorems at concrete runs *)

Import Dynamic.


Lemma binary_search_pulls_inward_witness :
  exists r,
    _binary_search world (untargeted_linf 0) 40 cur0 orig0 0 Linf 0 1 None = Ret r
    /\ linf_norm (vsub orig0 r) <= linf_norm (vsub orig0 cur0).
Proof.
  eexists. split; [vm_compute; reflexivity|].
  refine (binary_search_pulls_inward world (untargeted_linf 0) 40 cur0 orig0 0 Linf
            0 1 None _ _).
  vm_compute. reflexivity.
Defined.

Lemma binary_search_bracket_witness :
  exists r l u,
    _binary_search world (untargeted_l2 0) 40 cur0 orig0 0 L2 0 1 None = Ret r
    /\ r = _interpolate cur0 orig0 u L2
    /\ u - l <= theta (untargeted_l2 0).
Proof.
  destruct (_binary_search world (untargeted_l2 0) 40 cur0 orig0 0 L2 0 1 None)
    as [r| | |] eqn:Hr; [| vm_compute in Hr; discriminate Hr ..].
  destruct (binary_search_bracket world (untargeted_l2 0) 40 cur0 orig0 0 L2 0 1 None
              r 1 0 (theta (untargeted_l2 0)) eq_refl Hr)
    as (l & u & H1 & _ & _ & _ & H2 & _).
  exists r, l, u. repeat split; assumption.
Defined.

Lemma binary_search_passes_witness :
  _binary_search world (untargeted_l2 0) 9 cur0 orig0 0 L2 0 1 (Some (1 # 1000))
  = OutOfFuel.
Proof.
  refine (proj1 (binary_search_passes world (untargeted_l2 0) cur0 orig0 0 L2 0 1
                   (Some (1 # 1000)) 1 0 (1 # 1000) 9%nat 9%nat _ _) _ _).
  - reflexivity.
  - vm_compute. discriminate.
  - vm_compute. reflexivity.
  - lia.
Defined.

Lemma interpolate_endpoints_witness :
  Forall2 Qeq (_interpolate cur0 orig0 1 L2) cur0.
Proof.
  exact (proj1 (proj2 (interpolate_endpoints cur0 orig0 eq_refl))).
Defined.

Lemma attack_result_passes_test_witness :
  exists out st',
    _attack world (untargeted_l2 1) 40 cur0 orig0 0 None 0 1 s0 = Ret (out, st')
    /\ first_flag (_adversarial_satisfactory world (untargeted_l2 1) [out] 0 0 1) = true.
Proof.
  do 2 eexists. split; [vm_compute; reflexivity|].
  refine (attack_result_passes_test world (untargeted_l2 1) 40 cur0 orig0 0 None 0 1
            s0 _ _ _ _).
  - simpl. lia.
  - vm_compute. reflexivity.
Defined.

Lemma attack_counters_witness :
  exists out st',
    _attack world (untargeted_l2 1) 40 cur0 orig0 0 None 0 1 s0 = Ret (out, st')
    /\ curr_iter st' = (curr_iter s0 + max_iter (untargeted_l2 1))%nat.
Proof.
  do 2 eexists. split; [vm_compute; reflexivity|].
  refine (proj1 (attack_counters world (untargeted_l2 1) 40 cur0 orig0 0 None 0 1
                   s0 _ _ _)).
  vm_compute. reflexivity.
Defined.

Lemma num_eval_bounds_witness :
  (1 <= get_num_eval world (untargeted_l2 1) 0)%nat.
Proof.
  refine (proj2 (num_eval_bounds world (untargeted_l2 1) 0) _ _ _).
  - simpl. lia.
  - simpl. lia.
  - vm_compute. discriminate.
Defined.

Lemma compute_delta_value_witness :
  _compute_delta world (untargeted_l2 1) 1 cur0 orig0 0 1
  == (1 # 100) * distance world (untargeted_l2 1) orig0 cur0.
Proof.
  refine (proj2 (compute_delta_value world (untargeted_l2 1) 1 cur0 orig0 0 1) _ _ _).
  - discriminate.
  - reflexivity.
  - vm_compute. discriminate.
Defined.

Lemma linf_update_is_sign_witness :
  exists upd st',
    _compute_update world (untargeted_linf 1) cur0 2 (1 # 10) 0 None 0 1 s0
    = Ret (upd, st')
    /\ length upd = numel (untargeted_linf 1).
Proof.
  do 2 eexists. split; [vm_compute; reflexivity|].
  refine (proj1 (linf_update_is_sign world (untargeted_linf 1) cur0 2 (1 # 10) 0 None
                   0 1 s0 _ _ _ _)).
  - reflexivity.
  - vm_compute. reflexivity.
Defined.

Lemma init_sample_returns_witness :
  exists found k,
    (k <= init_size (untargeted_l2 0))%nat
    /\ _init_sample world (untargeted_l2 0) 10 orig0 (-1) 0 None None None 0 1 s0
       = Ret (found, advance_unif k s0).
Proof.
  refine (init_sample_returns world (untargeted_l2 0) 10 orig0 (-1) 0 None None 0 1
            s0 _).
  lia.
Defined.

Lemma generate_returns_without_passes_witness :
  exists out st',
    generate world (untargeted_l2 0) 10 [orig0] None None None None s0 = Ret (out, st')
    /\ noise_pos st' = noise_pos s0
    /\ (unif_pos st' <= unif_pos s0 + length [orig0] * init_size (untargeted_l2 0))%nat.
Proof.
  refine (generate_returns_without_passes world (untargeted_l2 0) 10 [orig0] None None
            None s0 _ _ _ _).
  - reflexivity.
  - lia.
  - discriminate.
  - intros Ht. discriminate Ht.
Defined.

Lemma generate_with_initial_examples_raises_witness :
  exists e,
    generate world (untargeted_l2 1) 40 [orig0] None (Some [[1; 1]]) (Some [[1; 0]])
      None s0 = Raise e.
Proof.
  refine (generate_with_initial_examples_raises world (untargeted_l2 1)
            world_two_classes _ 40%nat [orig0] None (Some [[1; 1]]) [[1; 0]] None s0).
  reflexivity.
Defined.

Lemma generate_errors_witness :
  generate world targeted_l2 40 [orig0; cur0] (Some [0%Z]) None None None s0
  = Raise IndexError.
Proof.
  refine (proj2 (proj2 (generate_errors world targeted_l2)) 40%nat [orig0; cur0]
            [0%Z] None None s0 _ _ _ _).
  - reflexivity.
  - discriminate.
  - simpl. lia.
  - vm_compute. reflexivity.
Defined.

Lemma generate_keeps_shape_witness :
  exists out st',
    generate world (untargeted_l2 1) 40 [orig0] None None None None s0 = Ret (out, st')
    /\ Forall2 (fun xi oi : sample => length oi = length xi) [orig0] out.
Proof.
  do 2 eexists. split; [vm_compute; reflexivity|].
  refine (generate_keeps_shape world (untargeted_l2 1) 40 [orig0] None None None s0
            _ _ _ _).
  - repeat constructor.
  - vm_compute. reflexivity.
Defined.


Lemma set_params_updates_witness :
  getattr (fst (set_params [(key_norm, VInf)] obj0)) key_norm = Some VInf.
Proof.
  refine (proj1 (proj2 (proj2 (proj2 (proj2
            (set_params_updates [(key_norm, VInf)] obj0))))) key_norm _).
  right. left. reflexivity.
Defined.

Lemma check_params_accepts_witness : Dynamic._check_params obj0 = None.
Proof.
  refine (proj2 (proj1 (check_params_accepts obj0)) _).
  split; [reflexivity|].
  exists 10%Z, 500%Z, 10%Z, 100%Z, true. repeat split; try reflexivity; lia.
Defined.

Lemma generate_restarts_counter_witness :
  generate world (untargeted_l2 1) 40 [orig0] None None None None s0
  = generate world (untargeted_l2 1) 40 [orig0] None None None None
      (with_curr_iter 7 s0).
Proof.
  refine (generate_restarts_counter world (untargeted_l2 1) 40 [orig0] None None None
            None s0 (with_curr_iter 7 s0) _ _ _ _).
  - discriminate.
  - discriminate.
  - reflexivity.
  - reflexivity.
Defined.


Lemma init_sample_with_initial_example_witness :
  _init_sample world (untargeted_l2 0) 10 orig0 (-1) 0 (Some [1]) (Some cur0) None 0 1 s0
  = Ret (Some (cur0, inject_Z 0), s0).
Proof.
  refine (proj1 (proj2 (init_sample_with_initial_example world (untargeted_l2 0) 10
                          orig0 (-1) 0 cur0 None 0 1 s0)) 1 _ _).
  - reflexivity.
  - vm_compute. discriminate.
Defined.

Lemma constructed_theta_terminates_witness : 0 < theta (untargeted_linf 1).
Proof.
  refine (proj1 (constructed_theta_terminates world (untargeted_linf 1) _ _)).
  - reflexivity.
  - vm_compute. discriminate.
Defined.


End HopSkipJump.
